(** * TOCBOT: the rule-based core of the hybrid chatbot (src/main.py)

    A shallow embedding of the intent classifier, the local tools
    (DFA check, parenthesis check, sentence heuristic, arithmetic
    evaluation), the bounded dialogue history and the orchestrator,
    with the properties the specification states about them.

    Conventions.
    - A Python [str] is a [string]; on input text each [ascii] stands for
      one character with code point below 256, and the character tables
      below ([isspace], [lower], [isalnum]) are Python's tables on that
      range.  Reply literals are kept as they are written in the source.
    - Collaborators that live outside the repository (the clock, the
      remote chat API, the tagger, the regex engine, the symbolic-math
      library, the built-in [eval]) are arguments of the functions that
      call them.  The tagger, the regex engine and the evaluators hand
      back a value or an exception.  For [eval] a reference model of a
      fragment of the expression language says what it is assumed to
      do.
    - The history is the content of the bounded deque, oldest first. *)

From Stdlib Require Import ZArith NArith Ascii String DecimalString.
From stdpp Require Import gmap strings list.

(** ** Python string primitives *)

Module PyStr.

Definition code (c : ascii) : N := N_of_ascii c.

(** [str.isspace] on one character, which is also what [str.strip],
    [str.split] and the regex class [\s] use. *)
Definition isspace (c : ascii) : bool :=
  let n := code c in
  ((9 <=? n) && (n <=? 13) || (28 <=? n) && (n <=? 32)
   || (n =? 133) || (n =? 160))%N.

(** [str.lower] on one character. *)
Definition lower_char (c : ascii) : ascii :=
  let n := code c in
  if ((65 <=? n) && (n <=? 90)
      || (192 <=? n) && (n <=? 222) && negb (n =? 215))%N
  then ascii_of_N (n + 32) else c.

(** [str.isalnum] on one character. *)
Definition isalnum (c : ascii) : bool :=
  let n := code c in
  ((48 <=? n) && (n <=? 57) || (65 <=? n) && (n <=? 90)
   || (97 <=? n) && (n <=? 122)
   || (n =? 170) || (n =? 178) || (n =? 179) || (n =? 181)
   || (n =? 185) || (n =? 186) || (188 <=? n) && (n <=? 190)
   || (192 <=? n) && (n <=? 214) || (216 <=? n) && (n <=? 246)
   || (248 <=? n))%N.

(** The regex class [\w]. *)
Definition isword (c : ascii) : bool :=
  isalnum c || Ascii.eqb c "_".

(** The regex class [\d]. *)
Definition isdigit (c : ascii) : bool :=
  let n := code c in ((48 <=? n) && (n <=? 57))%N.

Fixpoint lower (s : string) : string :=
  match s with
  | EmptyString => EmptyString
  | String c s' => String (lower_char c) (lower s')
  end.

Fixpoint lstrip (s : string) : string :=
  match s with
  | EmptyString => EmptyString
  | String c s' => if isspace c then lstrip s' else s
  end.

Fixpoint rstrip (s : string) : string :=
  match s with
  | EmptyString => EmptyString
  | String c s' =>
      match rstrip s' with
      | EmptyString => if isspace c then EmptyString else String c EmptyString
      | r => String c r
      end
  end.

(** [s.strip()] *)
Definition strip (s : string) : string := rstrip (lstrip s).

(** [s.startswith(p)] *)
Fixpoint startswith (p s : string) : bool :=
  match p, s with
  | EmptyString, _ => true
  | String a p', String b s' => Ascii.eqb a b && startswith p' s'
  | String _ _, EmptyString => false
  end.

(** [s.endswith(p)] *)
Fixpoint endswith (p s : string) : bool :=
  String.eqb s p
  || match s with
     | EmptyString => false
     | String _ s' => endswith p s'
     end.

(** [p in s] *)
Fixpoint contains (p s : string) : bool :=
  startswith p s
  || match s with
     | EmptyString => false
     | String _ s' => contains p s'
     end.

(** [s.split(sep)] for a one-character separator: every occurrence
    splits, and the result is never the empty list. *)
Fixpoint split_on (sep : ascii) (s : string) : list string :=
  match s with
  | EmptyString => [EmptyString]
  | String c s' =>
      if Ascii.eqb c sep then EmptyString :: split_on sep s'
      else match split_on sep s' with
           | [] => [String c EmptyString]
           | w :: ws => String c w :: ws
           end
  end.

(** [s.split(sep, 1)]: at most one split, at the first occurrence. *)
Fixpoint split_once (sep : ascii) (s : string) : list string :=
  match s with
  | EmptyString => [EmptyString]
  | String c s' =>
      if Ascii.eqb c sep then [EmptyString; s']
      else match split_once sep s' with
           | [] => [String c EmptyString]
           | w :: ws => String c w :: ws
           end
  end.

(** [sep.join(parts)] *)
Fixpoint join (sep : string) (parts : list string) : string :=
  match parts with
  | [] => EmptyString
  | [w] => w
  | w :: ws => w +:+ sep +:+ join sep ws
  end.

(** [s.split()]: the maximal runs of non-whitespace characters.
    [cur] is the run being read, kept in reverse. *)
Fixpoint split_ws_go (cur : list ascii) (s : string) : list string :=
  let flush := match cur with
               | [] => []
               | _ => [string_of_list_ascii (rev cur)]
               end in
  match s with
  | EmptyString => flush
  | String c s' =>
      if isspace c then flush ++ split_ws_go [] s'
      else split_ws_go (c :: cur) s'
  end.

Definition split_ws (s : string) : list string := split_ws_go [] s.

(** [s.replace(old, new)] for a one-character [old]. *)
Fixpoint replace_char (old : ascii) (new : string) (s : string) : string :=
  match s with
  | EmptyString => EmptyString
  | String c s' =>
      if Ascii.eqb c old then new +:+ replace_char old new s'
      else String c (replace_char old new s')
  end.

(** Number of occurrences of a character. *)
Fixpoint count (c : ascii) (s : string) : nat :=
  match s with
  | EmptyString => 0
  | String d s' => (if Ascii.eqb d c then 1 else 0) + count c s'
  end.

(** The characters of [s] that satisfy [keep], in order. *)
Fixpoint filter_chars (keep : ascii -> bool) (s : string) : string :=
  match s with
  | EmptyString => EmptyString
  | String c s' =>
      if keep c then String c (filter_chars keep s') else filter_chars keep s'
  end.

(** Every character of [s] satisfies [P]. *)
Fixpoint all_chars (P : ascii -> bool) (s : string) : bool :=
  match s with
  | EmptyString => true
  | String c s' => P c && all_chars P s'
  end.

End PyStr.

Import PyStr.

(** ** SpecializedEngine: the language-theory tools *)

Definition is01 (c : ascii) : bool := Ascii.eqb c "0" || Ascii.eqb c "1".

(** [re.fullmatch(cls+, s)] for a character class [cls]: the whole of a
    non-empty [s] lies in the class. *)
Definition fullmatch_class_plus (cls : ascii -> bool) (s : string) : bool :=
  match s with
  | EmptyString => false
  | String _ _ => all_chars cls s
  end.

Definition check_dfa_ends_01 (binary : string) : string :=
  if negb (fullmatch_class_plus is01 binary)
  then "Invalid input: use only 0 and 1"
  else if endswith "01" binary then "✓ Accepted" else "✗ Rejected".

(** The loop of [check_pda_balanced]; the top of the stack is the head
    of the list. *)
Fixpoint pda_scan (stack : list ascii) (expr : string) : string :=
  match expr with
  | EmptyString =>
      match stack with [] => "✓ Balanced" | _ => "✗ Unbalanced" end
  | String ch rest =>
      if Ascii.eqb ch "(" then pda_scan (ch :: stack) rest
      else if Ascii.eqb ch ")" then
        match stack with
        | [] => "✗ Unbalanced"
        | _ :: stack' => pda_scan stack' rest
        end
      else pda_scan stack rest
  end.

Definition check_pda_balanced (expr : string) : string := pda_scan [] expr.

(** Properly nested, as the specification words it: in every prefix the
    closing parentheses do not outnumber the opening ones, and over the
    whole string the two counts agree. *)
Definition properly_nested (s : string) : Prop :=
  (forall p q, s = p +:+ q -> count ")" p <= count "(" p)
  /\ count "(" s = count ")" s.

Definition is_paren (c : ascii) : bool := Ascii.eqb c "(" || Ascii.eqb c ")".

(** ** Collaborators outside the repository *)

(** What a call into the Python runtime or a library hands back: a
    value, or an exception of class [Exception] with its message. *)
Inductive exc_kind : Type :=
| SyntaxError | NameError | ZeroDivisionError | TypeError | ValueError
| OverflowError | OtherError.

(** The values: an integer, the empty dictionary, a float with its
    text, and a value of another type with its text. *)
Inductive py_value : Type :=
| PyInt (z : Z)
| PyEmptyDict
| PyFloat (repr : string)
| PyOther (str : string).

Inductive py_outcome : Type :=
| Returned (v : py_value)
| Raised (k : exc_kind) (msg : string).

Definition str_of_Z (z : Z) : string := NilZero.string_of_int (Z.to_int z).

(** [str] refuses an integer of more than 4300 digits (the default of
    [sys.set_int_max_str_digits], in CPython since 3.11 and in the
    later releases of 3.7 to 3.10). *)
Definition int_str_bound : Z := 10 ^ 4300.

Definition int_str_error : string :=
  "Exceeds the limit (4300 digits) for integer string conversion; use sys.set_int_max_str_digits() to increase the limit".

(** [str(v)], which is what an f-string interpolates: the text, or the
    exception the conversion raises. *)
Definition py_str (v : py_value) : string + exc_kind * string :=
  match v with
  | PyInt z =>
      if (Z.abs z <? int_str_bound)%Z then inl (str_of_Z z)
      else inr (ValueError, int_str_error)
  | PyEmptyDict => inl "{}"
  | PyFloat s => inl s
  | PyOther s => inl s
  end.

(** [re.fullmatch(pattern, text)]: a match object, [None], the
    exception [re.error], or another exception ([OverflowError] for a
    repetition count beyond what the engine holds, [RecursionError]
    for a pattern nested too deep). *)
Inductive re_outcome : Type :=
| ReMatch
| ReNoMatch
| ReError (msg : string)
| ReRaises.

(** One token as the tagger reports it. *)
Record tagged : Type := { pos_ : string; dep_ : string }.

(** ** SpecializedEngine: sentence heuristic, regex test, arithmetic *)

Definition aux_forms : list string :=
  ["am"; "is"; "are"; "was"; "were"; "be"; "been"; "being"; "do"; "does";
   "did"; "have"; "has"; "had"; "will"; "would"; "shall"; "should"; "can";
   "could"; "may"; "might"; "must"].

Definition opt_isword (c : option ascii) : bool :=
  match c with Some c => isword c | None => false end.

(** The regex assertion [\b] between two neighbouring positions. *)
Definition word_boundary (prev next : option ascii) : bool :=
  xorb (opt_isword prev) (opt_isword next).

Definition head_char (s : string) : option ascii :=
  match s with EmptyString => None | String c _ => Some c end.

(** Match the literal [w] at the start of [s]; the result is the last
    character read (or [prev] for an empty literal) and what follows. *)
Fixpoint match_literal (w : string) (prev : option ascii) (s : string)
  : option (option ascii * string) :=
  match w with
  | EmptyString => Some (prev, s)
  | String a w' =>
      match s with
      | EmptyString => None
      | String b s' =>
          if Ascii.eqb a b then match_literal w' (Some b) s' else None
      end
  end.

(** [\b(w1|w2|...)\b] tried at one position. *)
Definition match_word_here (words : list string) (prev : option ascii)
    (s : string) : bool :=
  word_boundary prev (head_char s)
  && existsb (fun w =>
                match match_literal w prev s with
                | Some (last, rest) => word_boundary last (head_char rest)
                | None => false
                end) words.

(** [re.search(r"\b(w1|w2|...)\b", s)] as a truth value. *)
Fixpoint search_word (words : list string) (prev : option ascii)
    (s : string) : bool :=
  match_word_here words prev s
  || match s with
     | EmptyString => false
     | String c s' => search_word words (Some c) s'
     end.

Section Engine.

(** [self.nlp]: the language model, when it is installed and loads.
    Applied to a text it gives the tagged tokens, or [None] when it
    raises (it refuses a text longer than its [max_length]). *)
Variable nlp : option (string -> option (list tagged)).
Variable re_fullmatch : string -> string -> re_outcome.
Variable SYMPY_AVAILABLE : bool.
Variable sympy_N : string -> py_outcome.
Variable py_eval : string -> py_outcome.

(** [evaluate_math]: the evaluation and the formatting of its value
    are both inside the [try], whose handler takes every [Exception]. *)
Definition evaluate_math (expr : string) : string :=
  let expr_mod := replace_char "^" "**" expr in
  match (if SYMPY_AVAILABLE then sympy_N expr_mod else py_eval expr_mod) with
  | Returned result =>
      match py_str result with
      | inl text => "Result: " +:+ text
      | inr (_, e) => "Math error: " +:+ e
      end
  | Raised _ e => "Math error: " +:+ e
  end.

(** [parse_sentence]: nothing handles an exception of the tagger;
    [None] stands for one, which leaves the function. *)
Definition parse_sentence (sentence : string) : option string :=
  let s := strip sentence in
  if String.eqb s EmptyString then Some "✗ Empty sentence."
  else
    match nlp with
    | Some tagger =>
        doc ← tagger s;
        let deps := map (fun t => lower (dep_ t)) doc in
        let pos := map pos_ doc in
        let has_verb :=
          existsb (fun p => String.eqb p "VERB" || String.eqb p "AUX") pos in
        let has_subject :=
          existsb (fun d => existsb (String.eqb d)
                              ["nsubj"; "nsubjpass"; "csubj"; "expl"]) deps in
        Some (if has_subject && has_verb then "✓ Valid English sentence."
              else if has_verb then "✓ Likely valid sentence."
              else "✗ Grammatically incorrect.")
    | None =>
        let tokens := split_ws s in
        Some (if length tokens <? 3 then "✗ Too short to be valid."
              else if search_word aux_forms None (lower s)
                   then "✓ Probably valid English sentence."
                   else "✗ Seems incomplete or incorrect.")
    end.

(** [test_regex]: the handler takes [re.error] only; [None] stands for
    another exception, which leaves the function. *)
Definition test_regex (pattern text : string) : option string :=
  match re_fullmatch pattern text with
  | ReMatch => Some "✓ Match"
  | ReNoMatch => Some "✗ No match"
  | ReError e => Some ("Regex error: " +:+ e)
  | ReRaises => None
  end.

End Engine.

(** ** IntentClassifier *)

Inductive intent : Type :=
| Help | Command | Daily | Parse | Dfa | Pda | Regex | Math | General.

(** Case-insensitive match of a lower-case literal at the start of [s];
    the result is what follows it. *)
Fixpoint match_literal_ci (w s : string) : option string :=
  match w with
  | EmptyString => Some s
  | String a w' =>
      match s with
      | EmptyString => None
      | String b s' =>
          if Ascii.eqb a (lower_char b) then match_literal_ci w' s' else None
      end
  end.

(** The pattern of the regex branch, tried at the start of [s]: the
    word string (IGNORECASE), [\s*], a colon, [\s*], then group 1, which
    is any run of characters (DOTALL) up to [\Z].  The result is group 1.
    Both [\s*] are greedy and what follows each of them cannot start with
    a space, and the group takes the whole remainder, so there is one way
    to match. *)
Definition match_string_field_here (s : string) : option string :=
  match match_literal_ci "string" s with
  | Some s1 =>
      match lstrip s1 with
      | String ":" s2 => Some (lstrip s2)
      | _ => None
      end
  | None => None
  end.

(** [re.search] of that pattern: the leftmost position where it matches. *)
Fixpoint search_string_field (s : string) : option string :=
  match match_string_field_here s with
  | Some g => Some g
  | None =>
      match s with
      | EmptyString => None
      | String _ s' => search_string_field s'
      end
  end.

Definition is_math_char (c : ascii) : bool :=
  isdigit c
  || existsb (Ascii.eqb c) ["+"; "-"; "*"; "/"; "("; ")"; "."; "^"; " "; "%"]%char.

(** [re.match(r"^[...]+$", s)]: [+] is greedy and [$] holds at the end of
    the string or just before a final newline. *)
Fixpoint match_class_plus_eol (cls : ascii -> bool) (s : string) : bool :=
  match s with
  | EmptyString => false
  | String c s' =>
      cls c && (match s' with
                | EmptyString => true
                | String "010" EmptyString => true
                | _ => false
                end || match_class_plus_eol cls s')
  end.

(** [classify]; [None] stands for an exception that leaves the function
    (an [IndexError] from the unguarded [split(":", 1)[1]]). *)
Definition classify (text : string) : option (intent * gmap string string) :=
  let t := strip text in
  let l := lower t in
  if String.eqb l "help" then Some (Help, ∅)
  else if String.eqb l "clear" then Some (Command, {[ "cmd" := "clear" ]})
  else if contains "daily conversation" l || contains "everyday chat" l
  then Some (Daily, {[ "message" := t ]})
  else if startswith "parse:" l
  then v ← split_once ":" t !! 1; Some (Parse, {[ "sentence" := strip v ]})
  else if startswith "dfa:" l
  then v ← split_once ":" t !! 1; Some (Dfa, {[ "input" := strip v ]})
  else if startswith "pda:" l
  then v ← split_once ":" t !! 1; Some (Pda, {[ "input" := strip v ]})
  else if startswith "regex:" l
  then
    match split_once ":" t !! 1 with
    | Some tail =>
        let parts := split_on ";" tail in
        match parts !! 0 with
        | Some p0 =>
            let pattern := strip p0 in
            let rest := join ";" (drop 1 parts) in
            let s := match search_string_field rest with
                     | Some g => strip g
                     | None => EmptyString
                     end in
            Some (Regex, {[ "pattern" := pattern; "string" := s ]})
        | None => Some (General, ∅)
        end
    | None => Some (General, ∅)
    end
  else if match_class_plus_eol is_math_char l
  then Some (Math, {[ "expression" := t ]})
  else Some (General, ∅).

(** ** DialogueManager *)

Record Turn : Type := { role : string; message : string; timestamp : string }.

(** [deque.append] on a deque with a [maxlen]: the item goes to the
    right end, and if the deque is then too long the leftmost item is
    discarded. *)
Definition deque_append {A} (maxlen : nat) (d : list A) (x : A) : list A :=
  let d' := d ++ [x] in
  if maxlen <? length d' then drop 1 d' else d'.

Module DialogueManager.

Definition maxlen : nat := 30.

(** [__init__] *)
Definition init : list Turn := [].

(** [add]; [now] is [datetime.now().isoformat()] at the call. *)
Definition add (now : string) (role message : string) (history : list Turn)
  : list Turn :=
  deque_append maxlen history
    {| role := role; message := message; timestamp := now |}.

Definition get_history (history : list Turn) : list Turn := history.

Definition clear (history : list Turn) : list Turn := [].

End DialogueManager.

(** ** PerplexityClient *)

Definition py_truthy (s : option string) : bool :=
  match s with
  | Some (String _ _) => true
  | _ => false
  end.

Definition newline : string := String "010" EmptyString.

(** [_help_text]: the lines of the text, joined by newlines. *)
Definition _help_text : string :=
  join newline
    ["Help";
     EmptyString;
     "Parsing";
     "• parse: <sentence> — returns ✓ Valid or ✗ Incorrect.";
     EmptyString;
     "Theory of Computation";
     "• dfa: <binary> — accepts if it ends with 01.";
     "• pda: <expr> — checks balanced parentheses.";
     "• regex: <pattern>; string: <text> — full-match test.";
     "• math: <expression> — evaluate safely.";
     EmptyString;
     "Daily Chat";
     "• Include 'daily conversation' or 'everyday chat' to use Perplexity.";
     EmptyString;
     "Other";
     "• help — show this";
     "• clear — reset conversation"].

(** [_fallback_text] *)
Definition _fallback_text : string :=
  join newline
    ["Local Tools:";
     "• parse: <sentence>";
     "• dfa: <binary>";
     "• pda: <parentheses>";
     "• regex: <pattern>; string: <text>";
     "• math: e.g., 2^10 + 5";
     EmptyString;
     "For normal convo, include 'daily conversation' or 'everyday chat'."].

Module PerplexityClient.

Section Client.

Variable REQUESTS_AVAILABLE : bool.
(** [self.api_key], that is the constructor argument or else the
    environment variable. *)
Variable api_key : option string.
(** The request of [chat] and what it makes of the answer or of the
    failure: always some text. *)
Variable remote_chat : string -> list Turn -> string.

Definition is_available : bool := py_truthy api_key && REQUESTS_AVAILABLE.

Definition chat (message : string) (history : list Turn) : string :=
  if negb is_available then "❌ Perplexity API not available or key missing."
  else remote_chat message history.

End Client.

End PerplexityClient.

(** ** HybridChatbot *)

Section Bot.

Variable nlp : option (string -> option (list tagged)).
Variable re_fullmatch : string -> string -> re_outcome.
Variable SYMPY_AVAILABLE : bool.
Variable sympy_N : string -> py_outcome.
Variable py_eval : string -> py_outcome.
Variable REQUESTS_AVAILABLE : bool.
Variable api_key : option string.
Variable remote_chat : string -> list Turn -> string.

(** [params.get(key, default)] *)
Definition get_default (params : gmap string string) (key default : string)
  : string :=
  match params !! key with Some v => v | None => default end.

(** [chat]: the reply and the history afterwards.  [now1] and [now2]
    are the clock readings of the two [add] calls.  [None] stands for
    an exception that leaves [classify], [parse_sentence] or
    [test_regex], and so [chat], before anything is recorded. *)
Definition chat (now1 now2 : string) (text : string) (history : list Turn)
  : option (string * list Turn) :=
  '(intent, params) ← classify text;
  let record reply :=
    let h1 := DialogueManager.add now1 "user" text history in
    let h2 := DialogueManager.add now2 "assistant" reply h1 in
    Some (reply, h2) in
  match intent with
  | Command =>
      if decide (params !! "cmd" = Some "clear")
      then Some ("✓ Conversation cleared", DialogueManager.clear history)
      else record _fallback_text
  | Help => Some (_help_text, history)
  | Daily =>
      let reply :=
        if PerplexityClient.is_available REQUESTS_AVAILABLE api_key then
          let reply :=
            PerplexityClient.chat REQUESTS_AVAILABLE api_key remote_chat
              (get_default params "message" text)
              (DialogueManager.get_history history) in
          if String.eqb reply EmptyString then "External API didn’t respond." else reply
        else "⚠️ Perplexity API not configured. Set PERPLEXITY_API_KEY." in
      record reply
  | Parse =>
      reply ← parse_sentence nlp (get_default params "sentence" text);
      record reply
  | Dfa => record (check_dfa_ends_01 (get_default params "input" text))
  | Pda => record (check_pda_balanced (get_default params "input" text))
  | Regex =>
      reply ← test_regex re_fullmatch (get_default params "pattern" EmptyString)
                (get_default params "string" EmptyString);
      record reply
  | Math => record (evaluate_math SYMPY_AVAILABLE sympy_N py_eval
                      (get_default params "expression" text))
  | General => record _fallback_text
  end.

End Bot.

(** ** Notions the properties are stated with *)

(** The tool of the intent lets an exception through: the tagger raises
    in [parse_sentence], or the regex engine raises another exception
    than [re.error] in [test_regex]. *)
Definition tool_raises (nlp : option (string -> option (list tagged)))
    (re_fullmatch : string -> string -> re_outcome)
    (i : intent) (params : gmap string string) (text : string) : Prop :=
  match i with
  | Parse => parse_sentence nlp (get_default params "sentence" text) = None
  | Regex => test_regex re_fullmatch (get_default params "pattern" EmptyString)
               (get_default params "string" EmptyString) = None
  | _ => False
  end.

(** Every character of [s] is [0] or [1]. *)
Definition over01 (s : string) : Prop :=
  Forall (fun c => c = "0"%char \/ c = "1"%char) (list_ascii_of_string s).

(** [s] ends in [suffix]. *)
Definition ends_in (suffix s : string) : Prop := exists p, s = p +:+ suffix.

(** The operations on a dialogue history, and a run of them. *)
Inductive history_op : Type :=
| OpAdd (now role message : string)
| OpClear.

Definition apply_op (history : list Turn) (op : history_op) : list Turn :=
  match op with
  | OpAdd now role message => DialogueManager.add now role message history
  | OpClear => DialogueManager.clear history
  end.

Definition run_ops (ops : list history_op) (history : list Turn) : list Turn :=
  foldl apply_op history ops.

Definition add_turn (history : list Turn) (t : Turn) : list Turn :=
  DialogueManager.add (timestamp t) (role t) (message t) history.

(** The last [n] items of a list. *)
Definition keep_last {A} (n : nat) (l : list A) : list A :=
  drop (length l - n) l.

(** The last character of [s], or [prev] when [s] is empty. *)
Fixpoint last_char (prev : option ascii) (s : string) : option ascii :=
  match s with
  | EmptyString => prev
  | String c s' => last_char (Some c) s'
  end.

(** [t] contains one of [words] as a whole word: an occurrence with no
    word character right before it and none right after it. *)
Definition contains_whole_word (words : list string) (t : string) : Prop :=
  exists pre w post,
    t = pre +:+ w +:+ post /\ In w words
    /\ opt_isword (last_char None pre) = false
    /\ opt_isword (head_char post) = false.

(** A literal that starts and ends with a word character. *)
Definition wordy (w : string) : bool :=
  opt_isword (head_char w) && opt_isword (last_char None w).

Definition numbered_turn (i : nat) : Turn :=
  {| role := "user"; message := str_of_Z (Z.of_nat i); timestamp := EmptyString |}.

(** [tail] is what follows the first [sep] of [t]. *)
Definition remainder_after_first (sep : ascii) (t tail : string) : Prop :=
  exists head, t = head +:+ String sep tail /\ count sep head = 0.

(** The remainder [tail] of a regex command splits at its first
    semicolon into [pat] and [rest]; without a semicolon [pat] is all of
    it and [rest] is empty. *)
Definition splits_at_first_semicolon (tail pat rest : string) : Prop :=
  (tail = pat +:+ String ";" rest /\ count ";" pat = 0)
  \/ (count ";" tail = 0 /\ pat = tail /\ rest = EmptyString).

(** A string field marker (the word string in any case, optional
    whitespace, a colon) sits in [rest] right after [pre], and [post] is
    what follows its colon. *)
Definition field_marker_at (rest pre post : string) : Prop :=
  exists kw ws,
    rest = pre +:+ kw +:+ ws +:+ String ":" post
    /\ lower kw = "string" /\ all_chars isspace ws = true.

(** The leftmost such marker. *)
Definition first_field_marker (rest pre post : string) : Prop :=
  field_marker_at rest pre post
  /\ forall pre' post', field_marker_at rest pre' post' ->
       String.length pre <= String.length pre'.

(** The string parameter as the specification words it: what follows the
    final occurrence of the literal string: (in any case), trimmed, and
    the empty string when there is no occurrence. *)
Fixpoint after_final_marker (s : string) : option string :=
  match s with
  | EmptyString => None
  | String _ s' =>
      match after_final_marker s' with
      | Some r => Some r
      | None => match_literal_ci "string:" s
      end
  end.

Definition spec_string_param (rest : string) : string :=
  match after_final_marker rest with
  | Some r => strip r
  | None => EmptyString
  end.

(** The two turns one exchange records. *)
Definition user_turn (now text : string) : Turn :=
  {| role := "user"; message := text; timestamp := now |}.

Definition assistant_turn (now reply : string) : Turn :=
  {| role := "assistant"; message := reply; timestamp := now |}.

Definition not_configured : string :=
  "⚠️ Perplexity API not configured. Set PERPLEXITY_API_KEY.".

(** ** A reference model of the built-in [eval] on arithmetic

    [evaluate_math] hands its text to Python's [eval] with the globals
    [{"__builtins__": {}}].  [py_eval_arith] says what that call does on
    a fragment of the expression language: decimal integer literals,
    float literals written with a point, the constants [True], [False]
    and [None], names, calls with positional arguments, attribute
    references, the operators [+ - * / // % **], parentheses and spaces.
    It computes with integers; of a float it says that there is one,
    not which.  Its answer is [None] outside the fragment: another
    character, another kind of literal, another keyword of the
    expression grammar, a tuple, a starred argument, a comma before a
    closing parenthesis, an attribute other than [real] of an integer,
    arithmetic on a constant, and where the limits of an interpreter
    come into play: a text of more than 64 characters, an integer of
    more than 4300 digits, an exponent above 14300. *)

Module PyEval.

Inductive binop : Type := Add | Sub | Mul | TrueDiv | FloorDiv | Mod | Pow.

Inductive token : Type :=
| TNum (z : Z)
| TFloat
| TBadNum
| TName (x : string)
| TConst (x : string)
| TKwStmt
| TKwExpr
| TOp (op : binop)
| TLParen
| TRParen
| TComma
| TDot.

#[warnings="-register-all"]
Inductive expr : Type :=
| ENum (z : Z)
| EFloat
| EConst (x : string)
| EName (x : string)
| EParen (e : expr)
| EUnary (negate : bool) (e : expr)
| EBin (op : binop) (l r : expr)
| ECall (f : expr) (args : list expr)
| EAttr (e : expr) (x : string).

(** *** Tokens *)

Definition is_digit (c : ascii) : bool :=
  let n := code c in ((48 <=? n) && (n <=? 57))%N.

Definition is_name_start (c : ascii) : bool :=
  let n := code c in
  ((65 <=? n) && (n <=? 90) || (97 <=? n) && (n <=? 122) || (n =? 95))%N.

(** Keywords that only statements use: no expression contains them. *)
Definition stmt_keywords : list string :=
  ["as"; "assert"; "break"; "class"; "continue"; "def"; "del"; "elif";
   "except"; "finally"; "global"; "import"; "nonlocal"; "pass"; "raise";
   "return"; "try"; "while"; "with"].

(** The keywords that are constants. *)
Definition const_keywords : list string := ["False"; "None"; "True"].

(** The other keywords, and two names the compiler does not treat as
    names ([__debug__] is a constant). *)
Definition expr_keywords : list string :=
  ["and"; "async"; "await"; "else"; "for"; "from";
   "if"; "in"; "is"; "lambda"; "not"; "or"; "yield";
   "__debug__"; "__peg_parser__"].

Definition digit_value (c : ascii) : Z := Z.of_N (code c) - 48.

(** The integer literal whose digits, last first, are [ds]: zero may be
    written with several zeros, any other number has no leading zero. *)
Definition num_token (ds : list ascii) : token :=
  let digits := rev ds in
  let value := fold_left (fun v c => 10 * v + digit_value c)%Z digits 0%Z in
  match digits with
  | "0"%char :: _ => if (value =? 0)%Z then TNum 0 else TBadNum
  | _ => TNum value
  end.

Definition name_token (cs : list ascii) : token :=
  let x := string_of_list_ascii (rev cs) in
  if existsb (String.eqb x) stmt_keywords then TKwStmt
  else if existsb (String.eqb x) const_keywords then TConst x
  else if existsb (String.eqb x) expr_keywords then TKwExpr
  else TName x.

(** The token being read: nothing, the digits of an integer, a float
    from its point on, a name, a star, a slash, a point. *)
Inductive pending : Type :=
| PNone
| PNum (ds : list ascii)
| PFrac
| PName (cs : list ascii)
| PStar
| PSlash
| PDot.

(** What the next character does to the token being read. *)
Inductive absorbed : Type :=
| Absorb (emit : list token) (p : pending)
| Flush (emit : list token)
| Bad.

Definition absorb (p : pending) (c : ascii) : absorbed :=
  match p with
  | PNone => Flush []
  | PNum ds =>
      if is_digit c then Absorb [] (PNum (c :: ds))
      else if Ascii.eqb c "." then Absorb [] PFrac
      else if is_name_start c then Bad
      else Flush [num_token ds]
  | PFrac =>
      if is_digit c then Absorb [] PFrac
      else if Ascii.eqb c "." then Bad
      else if is_name_start c then Bad
      else Flush [TFloat]
  | PName cs =>
      if is_name_start c || is_digit c then Absorb [] (PName (c :: cs))
      else Flush [name_token cs]
  | PStar =>
      if Ascii.eqb c "*" then Absorb [TOp Pow] PNone else Flush [TOp Mul]
  | PSlash =>
      if Ascii.eqb c "/" then Absorb [TOp FloorDiv] PNone
      else Flush [TOp TrueDiv]
  | PDot =>
      if is_digit c then Absorb [] PFrac
      else if Ascii.eqb c "." then Bad
      else Flush [TDot]
  end.

Definition flush (p : pending) : list token :=
  match p with
  | PNone => []
  | PNum ds => [num_token ds]
  | PFrac => [TFloat]
  | PName cs => [name_token cs]
  | PStar => [TOp Mul]
  | PSlash => [TOp TrueDiv]
  | PDot => [TDot]
  end.

Fixpoint lex (p : pending) (s : string) : option (list token) :=
  match s with
  | EmptyString => Some (flush p)
  | String c r =>
      match absorb p c with
      | Absorb emit p' => (emit ++.) <$> lex p' r
      | Bad => None
      | Flush emit =>
          (emit ++.) <$>
          (if Ascii.eqb c " " then lex PNone r
           else if is_digit c then lex (PNum [c]) r
           else if is_name_start c then lex (PName [c]) r
           else if Ascii.eqb c "*" then lex PStar r
           else if Ascii.eqb c "/" then lex PSlash r
           else if Ascii.eqb c "." then lex PDot r
           else if Ascii.eqb c "+" then (TOp Add ::.) <$> lex PNone r
           else if Ascii.eqb c "-" then (TOp Sub ::.) <$> lex PNone r
           else if Ascii.eqb c "%" then (TOp Mod ::.) <$> lex PNone r
           else if Ascii.eqb c "(" then (TLParen ::.) <$> lex PNone r
           else if Ascii.eqb c ")" then (TRParen ::.) <$> lex PNone r
           else if Ascii.eqb c "," then (TComma ::.) <$> lex PNone r
           else None)
      end
  end.

Definition tokenize (s : string) : option (list token) := lex PNone s.

(** *** Grammar

    sum: term, then any number of [+ term] or [- term];
    term: factor, then any number of [* / // %] each with a factor;
    factor: [+ factor], [- factor] or power;
    power: primary, possibly followed by [**] and a factor;
    primary: an atom, then any number of trailers;
    atom: a number, a constant, a name or a parenthesised sum;
    trailer: the arguments of a call in parentheses, or a point and a
    name;
    arguments: sums separated by commas, possibly none.
    An empty pair of parentheses, a comma or a star right after an
    opening parenthesis or a comma make a tuple, a starred item or a
    trailing comma: they are outside the fragment. *)

Inductive presult (A : Type) : Type :=
| POk (a : A)
| PSyntax
| PUnmodelled
| PFuel.

Arguments POk {A} a.
Arguments PSyntax {A}.
Arguments PUnmodelled {A}.
Arguments PFuel {A}.

Definition pbind {A B} (r : presult A) (k : A -> presult B) : presult B :=
  match r with
  | POk a => k a
  | PSyntax => PSyntax
  | PUnmodelled => PUnmodelled
  | PFuel => PFuel
  end.

(** A star where an item starts: a starred item. *)
Definition starts_starred (ts : list token) : bool :=
  match ts with
  | TOp Mul :: _ | TOp Pow :: _ => true
  | _ => false
  end.

Fixpoint p_sum (fuel : nat) (ts : list token) {struct fuel}
  : presult (expr * list token) :=
  match fuel with
  | O => PFuel
  | S f => pbind (p_term f ts) (fun '(l, r) => p_sum_rest f l r)
  end
with p_sum_rest (fuel : nat) (lhs : expr) (ts : list token) {struct fuel}
  : presult (expr * list token) :=
  match fuel with
  | O => PFuel
  | S f =>
      match ts with
      | TOp Add :: r =>
          pbind (p_term f r) (fun '(t, r') => p_sum_rest f (EBin Add lhs t) r')
      | TOp Sub :: r =>
          pbind (p_term f r) (fun '(t, r') => p_sum_rest f (EBin Sub lhs t) r')
      | _ => POk (lhs, ts)
      end
  end
with p_term (fuel : nat) (ts : list token) {struct fuel}
  : presult (expr * list token) :=
  match fuel with
  | O => PFuel
  | S f => pbind (p_factor f ts) (fun '(l, r) => p_term_rest f l r)
  end
with p_term_rest (fuel : nat) (lhs : expr) (ts : list token) {struct fuel}
  : presult (expr * list token) :=
  match fuel with
  | O => PFuel
  | S f =>
      match ts with
      | TOp Mul :: r =>
          pbind (p_factor f r)
            (fun '(t, r') => p_term_rest f (EBin Mul lhs t) r')
      | TOp TrueDiv :: r =>
          pbind (p_factor f r)
            (fun '(t, r') => p_term_rest f (EBin TrueDiv lhs t) r')
      | TOp FloorDiv :: r =>
          pbind (p_factor f r)
            (fun '(t, r') => p_term_rest f (EBin FloorDiv lhs t) r')
      | TOp Mod :: r =>
          pbind (p_factor f r)
            (fun '(t, r') => p_term_rest f (EBin Mod lhs t) r')
      | _ => POk (lhs, ts)
      end
  end
with p_factor (fuel : nat) (ts : list token) {struct fuel}
  : presult (expr * list token) :=
  match fuel with
  | O => PFuel
  | S f =>
      match ts with
      | TOp Add :: r =>
          pbind (p_factor f r) (fun '(e, r') => POk (EUnary false e, r'))
      | TOp Sub :: r =>
          pbind (p_factor f r) (fun '(e, r') => POk (EUnary true e, r'))
      | _ => p_power f ts
      end
  end
with p_power (fuel : nat) (ts : list token) {struct fuel}
  : presult (expr * list token) :=
  match fuel with
  | O => PFuel
  | S f =>
      pbind (p_primary f ts)
        (fun '(b, r) =>
           match r with
           | TOp Pow :: r' =>
               pbind (p_factor f r') (fun '(e, r'') => POk (EBin Pow b e, r''))
           | _ => POk (b, r)
           end)
  end
with p_primary (fuel : nat) (ts : list token) {struct fuel}
  : presult (expr * list token) :=
  match fuel with
  | O => PFuel
  | S f =>
      match ts with
      | TNum z :: r => p_trailers f (ENum z) r
      | TFloat :: r => p_trailers f EFloat r
      | TConst x :: r => p_trailers f (EConst x) r
      | TName x :: r => p_trailers f (EName x) r
      | TLParen :: TRParen :: _ => PUnmodelled
      | TLParen :: r =>
          if starts_starred r then PUnmodelled
          else
            pbind (p_sum f r)
              (fun '(e, r') =>
                 match r' with
                 | TRParen :: r'' => p_trailers f (EParen e) r''
                 | TComma :: _ => PUnmodelled
                 | _ => PSyntax
                 end)
      | _ => PSyntax
      end
  end
with p_trailers (fuel : nat) (lhs : expr) (ts : list token) {struct fuel}
  : presult (expr * list token) :=
  match fuel with
  | O => PFuel
  | S f =>
      match ts with
      | TLParen :: TRParen :: r => p_trailers f (ECall lhs []) r
      | TLParen :: r =>
          pbind (p_args f r)
            (fun '(args, r') => p_trailers f (ECall lhs args) r')
      | TDot :: TName x :: r => p_trailers f (EAttr lhs x) r
      | TDot :: _ => PSyntax
      | _ => POk (lhs, ts)
      end
  end
with p_args (fuel : nat) (ts : list token) {struct fuel}
  : presult (list expr * list token) :=
  match fuel with
  | O => PFuel
  | S f =>
      if starts_starred ts then PUnmodelled
      else
        pbind (p_sum f ts)
          (fun '(a, r) =>
             match r with
             | TRParen :: r' => POk ([a], r')
             | TComma :: TRParen :: _ => PUnmodelled
             | TComma :: r' =>
                 pbind (p_args f r') (fun '(rest, r'') => POk (a :: rest, r''))
             | _ => PSyntax
             end)
  end.



(** *** Evaluation *)

(** What the model says of an evaluation: it gives this value; it gives
    a float; it comes back, with a value or with an exception; it
    raises an exception of this kind; it raises an exception. *)
Inductive outcome : Type :=
| Gives (v : py_value)
| GivesFloat
| ComesBack
| Raises (k : exc_kind)
| RaisesSome.

(** An operand that is there: an integer, a float, the empty
    dictionary, a constant. *)
Inductive operand : Type :=
| OInt (z : Z)
| OFloat
| ODict
| OConst.

Definition operand_of (o : outcome) : option operand :=
  match o with
  | Gives (PyInt z) => Some (OInt z)
  | Gives PyEmptyDict => Some ODict
  | Gives (PyFloat _) => Some OConst
  | Gives (PyOther _) => Some OConst
  | GivesFloat => Some OFloat
  | _ => None
  end.

Definition int_limit : Z := int_str_bound.

(** An exponent above this takes every base but 0, 1 and -1 past
    [int_limit]. *)
Definition max_exponent : Z := 14300.

(** An integer this small converts to a float. *)
Definition float_safe (z : Z) : bool := (Z.abs z <? 2 ^ 1000)%Z.

Definition py_int (z : Z) : option outcome :=
  if (Z.abs z <? int_limit)%Z then Some (Gives (PyInt z)) else None.

Definition int_binop (op : binop) (a b : Z) : option outcome :=
  match op with
  | Add => py_int (a + b)
  | Sub => py_int (a - b)
  | Mul => py_int (a * b)
  | TrueDiv =>
      if (b =? 0)%Z then Some (Raises ZeroDivisionError)
      else if float_safe a then Some GivesFloat else Some ComesBack
  | FloorDiv =>
      if (b =? 0)%Z then Some (Raises ZeroDivisionError) else py_int (a / b)
  | Mod =>
      if (b =? 0)%Z then Some (Raises ZeroDivisionError) else py_int (a mod b)
  | Pow =>
      if (b <? 0)%Z then Some ComesBack
      else if (max_exponent <? b)%Z then None
      else py_int (a ^ b)
  end.

(** A float and an integer [z], the float on the left or on the right. *)
Definition float_int_binop (op : binop) (float_left : bool) (z : Z) : outcome :=
  match op with
  | Add | Sub | Mul => if float_safe z then GivesFloat else ComesBack
  | TrueDiv =>
      if float_left then
        if (z =? 0)%Z then Raises ZeroDivisionError
        else if float_safe z then GivesFloat else ComesBack
      else ComesBack
  | FloorDiv | Mod =>
      if float_left && (z =? 0)%Z then Raises ZeroDivisionError else ComesBack
  | Pow => ComesBack
  end.

Definition float_binop (op : binop) : outcome :=
  match op with
  | Add | Sub | Mul => GivesFloat
  | _ => ComesBack
  end.

Definition apply_binop (op : binop) (a b : operand) : option outcome :=
  match a, b with
  | OConst, _ | _, OConst => None
  | ODict, _ | _, ODict => Some (Raises TypeError)
  | OInt x, OInt y => int_binop op x y
  | OFloat, OInt y => Some (float_int_binop op true y)
  | OInt x, OFloat => Some (float_int_binop op false x)
  | OFloat, OFloat => Some (float_binop op)
  end.

(** An operator whose left operand came back as [l], once the right
    operand has been evaluated with the outcome [r]. *)
Definition binop_outcome (op : binop) (l r : outcome) : option outcome :=
  match operand_of l, r with
  | Some a, Raises k => Some (Raises k)
  | _, Raises _ => Some RaisesSome
  | _, RaisesSome => Some RaisesSome
  | Some a, _ =>
      match operand_of r with
      | Some b => apply_binop op a b
      | None =>
          match a with
          | OConst => None
          | ODict => Some RaisesSome
          | _ => Some ComesBack
          end
      end
  | None, _ =>
      match operand_of r with
      | Some OConst => None
      | Some ODict => Some RaisesSome
      | _ => Some ComesBack
      end
  end.

Definition unary_outcome (negate : bool) (o : outcome) : option outcome :=
  match o with
  | Gives (PyInt z) => py_int (if negate then - z else z)
  | Gives PyEmptyDict => Some (Raises TypeError)
  | Gives _ => None
  | other => Some other
  end.

(** A call: none of the values of the fragment can be called.  [sure]
    says that the callee and the arguments so far are there. *)
Fixpoint call_outcome (sure : bool) (args : list (option outcome))
  : option outcome :=
  match args with
  | [] => Some (if sure then Raises TypeError else RaisesSome)
  | None :: _ => None
  | Some (Raises k) :: _ => Some (if sure then Raises k else RaisesSome)
  | Some RaisesSome :: _ => Some RaisesSome
  | Some ComesBack :: rest => call_outcome false rest
  | Some _ :: rest => call_outcome sure rest
  end.

Definition attr_outcome (o : outcome) (x : string) : option outcome :=
  match o with
  | Raises k => Some (Raises k)
  | RaisesSome => Some RaisesSome
  | Gives (PyInt z) => if String.eqb x "real" then Some (Gives (PyInt z)) else None
  | _ => None
  end.

(** The globals hold the one key [__builtins__], bound to the empty
    dictionary, which is also where the built-in names are looked up. *)
Definition lookup_name (x : string) : outcome :=
  if String.eqb x "__builtins__" then Gives PyEmptyDict else Raises NameError.

Fixpoint eval_expr (e : expr) : option outcome :=
  match e with
  | ENum z => Some (Gives (PyInt z))
  | EFloat => Some GivesFloat
  | EConst x => Some (Gives (PyOther x))
  | EName x => Some (lookup_name x)
  | EParen e1 => eval_expr e1
  | EUnary negate e1 =>
      match eval_expr e1 with
      | Some o => unary_outcome negate o
      | None => None
      end
  | EBin op l r =>
      match eval_expr l with
      | Some (Raises k) => Some (Raises k)
      | Some RaisesSome => Some RaisesSome
      | Some lo =>
          match eval_expr r with
          | Some ro => binop_outcome op lo ro
          | None => None
          end
      | None => None
      end
  | ECall f args =>
      match eval_expr f with
      | Some (Raises k) => Some (Raises k)
      | Some RaisesSome => Some RaisesSome
      | Some ComesBack => call_outcome false (map eval_expr args)
      | Some _ => call_outcome true (map eval_expr args)
      | None => None
      end
  | EAttr e1 x =>
      match eval_expr e1 with
      | Some o => attr_outcome o x
      | None => None
      end
  end.

Definition is_lexical_error (t : token) : bool :=
  match t with TBadNum | TKwStmt => true | _ => false end.

Definition is_expr_keyword (t : token) : bool :=
  match t with TKwExpr => true | _ => false end.

Definition py_eval_arith (src : string) : option outcome :=
  if 64 <? String.length src then None
  else
    ts ← tokenize src;
    if existsb is_lexical_error ts then Some (Raises SyntaxError)
    else if existsb is_expr_keyword ts then None
    else
      match p_sum (8 * length ts + 8) ts with
      | POk (e, []) => eval_expr e
      | POk (_, TComma :: _) => None
      | POk (_, _ :: _) => Some (Raises SyntaxError)
      | PSyntax => Some (Raises SyntaxError)
      | PUnmodelled => None
      | PFuel => None
      end.


(** The model as an [eval], with no message, with the text [nan] for
    every float, and with [OtherError] where the model names no
    outcome. *)
Definition py_eval_ref (src : string) : py_outcome :=
  match py_eval_arith src with
  | Some (Gives v) => Returned v
  | Some GivesFloat => Returned (PyFloat "nan")
  | Some (Raises k) => Raised k EmptyString
  | _ => Raised OtherError EmptyString
  end.




End PyEval.






(** A parse started on [n] tokens did not run out of fuel, and it left
    fewer than [n] tokens ([strict]) or at most [n]. *)
Definition within {A} (n : nat) (strict : bool)
    (res : PyEval.presult (A * list PyEval.token)) : Prop :=
  match res with
  | PyEval.PFuel => False
  | PyEval.POk (_, r) => if strict then length r < n else length r <= n
  | _ => True
  end.

(** ** PerplexityClient: the messages of a request *)

(** One entry of the [messages] list of the payload. *)
Record Msg : Type := { msg_role : string; content : string }.

(** The loop of [PerplexityClient.chat] over [history[-8:]]: the role is
    normalised, and a turn with an empty message is left out. *)
Definition history_msgs (history : list Turn) : list Msg :=
  flat_map (fun h =>
              let role := if String.eqb (role h) "user" then "user"
                          else "assistant" in
              let content := message h in
              if String.eqb content EmptyString then []
              else [{| msg_role := role; content := content |}])
    (keep_last 8 history).

(** [msgs] once the new message is appended. *)
Definition msgs (message : string) (history : list Turn) : list Msg :=
  history_msgs history ++ [{| msg_role := "user"; content := message |}].

Definition system_msg : Msg :=
  {| msg_role := "system";
     content := "You are a chill, friendly AI. Keep it short and natural. No citations." |}.

(** [payload["messages"]] *)
Definition payload_messages (message : string) (history : list Turn)
  : list Msg :=
  [system_msg] ++ msgs message history.

(** ** The web endpoint and a conversation *)

(** What [request.get_json()] hands back, as far as [api_chat] tells
    the cases apart.  The call raises an HTTP error when the request
    has no JSON content type or its body is malformed.  Otherwise it
    returns the parsed body: a falsy value ([null], [false], zero, an
    empty string or list), an object, or another value; of a field of
    an object, [api_chat] needs the text or that it is not a text. *)
Inductive json_field : Type :=
| JText (s : string)
| JNotText.

Inductive json_value : Type :=
| JFalsy
| JObject (fields : gmap string json_field)
| JTruthy.

Inductive request_json : Type :=
| JsonRaises
| JsonReturns (v : json_value).

Section Session.

Variable nlp : option (string -> option (list tagged)).
Variable re_fullmatch : string -> string -> re_outcome.
Variable SYMPY_AVAILABLE : bool.
Variable sympy_N : string -> py_outcome.
Variable py_eval : string -> py_outcome.
Variable REQUESTS_AVAILABLE : bool.
Variable api_key : option string.
Variable remote_chat : string -> list Turn -> string.

(** [api_chat]: the dictionary that is sent back and the history
    afterwards.  [None] stands for an exception that leaves the
    handler: the one of [get_json], the AttributeError of [data.get] on
    a value that is not an object or of [text.strip] in [classify] on a
    message that is not a text, or an exception that leaves [chat]. *)
Definition api_chat (now1 now2 : string) (body : request_json)
    (history : list Turn) : option (gmap string string * list Turn) :=
  data ← match body with
         | JsonRaises => None
         | JsonReturns JFalsy => Some (JObject ∅)
         | JsonReturns v => Some v
         end;
  text ← match data with
         | JObject fields =>
             Some (match fields !! "message" with
                   | Some v => v
                   | None => JText EmptyString
                   end)
         | _ => None
         end;
  match text with
  | JText text =>
      '(reply, history') ← chat nlp re_fullmatch SYMPY_AVAILABLE sympy_N py_eval
                              REQUESTS_AVAILABLE api_key remote_chat
                              now1 now2 text history;
      Some ({[ "response" := reply ]}, history')
  | JNotText => None
  end.

(** One call of [chat] in a conversation: the text and the two clock
    readings.  A call that raises leaves the history as it was. *)
Definition chat_step (history : list Turn) (call : string * string * string)
  : list Turn :=
  let '(text, now1, now2) := call in
  match chat nlp re_fullmatch SYMPY_AVAILABLE sympy_N py_eval
          REQUESTS_AVAILABLE api_key remote_chat now1 now2 text history with
  | Some (_, history') => history'
  | None => history
  end.

(** The history after a run of calls on a fresh chatbot. *)
Definition conversation (calls : list (string * string * string)) : list Turn :=
  foldl chat_step DialogueManager.init calls.

End Session.

(** User and assistant turns alternate, starting with a user turn and
    ending with an assistant turn. *)
Definition alternating (history : list Turn) : Prop :=
  Nat.even (length history) = true
  /\ forall i t, history !! i = Some t ->
       role t = if Nat.even i then "user" else "assistant".

(** The keys of the parameters each intent carries. *)
Definition intent_keys (i : intent) : gset string :=
  match i with
  | Help | General => ∅
  | Command => {[ "cmd" ]}
  | Daily => {[ "message" ]}
  | Parse => {[ "sentence" ]}
  | Dfa | Pda => {[ "input" ]}
  | Regex => {[ "pattern"; "string" ]}
  | Math => {[ "expression" ]}
  end.

(** A request without a message, and a request the handler cannot
    serve. *)
Definition without_message (body : request_json) : Prop :=
  body = JsonReturns JFalsy
  \/ exists fields, body = JsonReturns (JObject fields)
                    /\ fields !! "message" = None.

Definition unusable (body : request_json) : Prop :=
  body = JsonRaises
  \/ body = JsonReturns JTruthy
  \/ exists fields, body = JsonReturns (JObject fields)
                    /\ fields !! "message" = Some JNotText.

(** An evaluator that answers as the reference model on the texts
    without a caret and with a fixed value on the others. *)
Definition caret_blind (s : string) : py_outcome :=
  if count "^" s =? 0 then PyEval.py_eval_ref s else Returned PyEmptyDict.

(** The turns added since the last clear, oldest first. *)
Definition log_op (log : list Turn) (op : history_op) : list Turn :=
  match op with
  | OpAdd now role message =>
      log ++ [{| role := role; message := message; timestamp := now |}]
  | OpClear => []
  end.

Definition added_since_clear (ops : list history_op) : list Turn :=
  foldl log_op [] ops.
(** * Properties *)

(** ** Strings *)

#[local] Arguments String.append !_ _ / : simpl nomatch.

Lemma app_str_assoc (a b c : string) : (a +:+ b) +:+ c = a +:+ (b +:+ c).
Proof. induction a as [|x a IH]; simpl; [reflexivity | f_equal; exact IH]. Qed.

Lemma app_str_nil_r (a : string) : a +:+ EmptyString = a.
Proof. induction a as [|x a IH]; simpl; [reflexivity | f_equal; exact IH]. Qed.

Lemma app_str_nil_inv (a b : string) : EmptyString = a +:+ b -> a = EmptyString /\ b = EmptyString.
Proof. destruct a; simpl; [auto | discriminate]. Qed.

Lemma count_app c (a b : string) : count c (a +:+ b) = count c a + count c b.
Proof. induction a as [|x a IH]; simpl; [reflexivity | rewrite IH; lia]. Qed.

(** A prefix of [String c s] is empty or is [c] followed by a prefix of [s]. *)
Lemma app_str_cons_inv c (s p q : string) :
  String c s = p +:+ q ->
  (p = EmptyString /\ q = String c s) \/ (exists p', p = String c p' /\ s = p' +:+ q).
Proof.
  destruct p as [|d p']; simpl; intros H.
  - left. auto.
  - right. injection H as -> ->. eauto.
Qed.

(** ** The parenthesis checker *)

Lemma pda_scan_spec (s : string) : forall stack,
  pda_scan stack s = "✓ Balanced" <->
  (forall p q, s = p +:+ q -> count ")" p <= length stack + count "(" p)
  /\ length stack + count "(" s = count ")" s.
Proof.
  induction s as [|c s IH]; intros stack.
  - simpl. destruct stack as [|x stack]; simpl; split.
    + intros _. split; [|reflexivity].
      intros p q H. apply app_str_nil_inv in H as [-> _]. simpl. lia.
    + reflexivity.
    + discriminate.
    + intros [_ H]. lia.
  - cbn [pda_scan]. destruct (Ascii.eqb c "(") eqn:Eo.
    { apply Ascii.eqb_eq in Eo as ->. rewrite IH. cbn [length count].
      simpl Ascii.eqb. split.
      - intros [Hp Ht]. split; [|lia].
        intros p q H. apply app_str_cons_inv in H as [[-> _]|(p' & -> & ->)].
        + simpl. lia.
        + specialize (Hp p' q eq_refl). simpl. lia.
      - intros [Hp Ht]. split; [|lia].
        intros p q ->. specialize (Hp (String "(" p) q eq_refl).
        simpl in Hp. lia. }
    destruct (Ascii.eqb c ")") eqn:Ec.
    { apply Ascii.eqb_eq in Ec as ->. destruct stack as [|x stack].
      - split; [discriminate|]. intros [Hp _].
        specialize (Hp ")" s eq_refl). simpl in Hp. lia.
      - rewrite IH. cbn [length count]. simpl Ascii.eqb. split.
        + intros [Hp Ht]. split; [|lia].
          intros p q H. apply app_str_cons_inv in H as [[-> _]|(p' & -> & ->)].
          * simpl. lia.
          * specialize (Hp p' q eq_refl). simpl. lia.
        + intros [Hp Ht]. split; [|lia].
          intros p q ->. specialize (Hp (String ")" p) q eq_refl).
          simpl in Hp. lia. }
    rewrite IH. cbn [count]. rewrite Eo, Ec. simpl. split.
    + intros [Hp Ht]. split; [|lia].
      intros p q H. apply app_str_cons_inv in H as [[-> _]|(p' & -> & ->)].
      * simpl. lia.
      * specialize (Hp p' q eq_refl). cbn [count]. rewrite Eo, Ec. simpl. lia.
    + intros [Hp Ht]. split; [|lia].
      intros p q ->. specialize (Hp (String c p) q eq_refl).
      cbn [count] in Hp. rewrite Eo, Ec in Hp. simpl in Hp. lia.
Qed.

Lemma pda_scan_filter (s : string) : forall stack,
  pda_scan stack (filter_chars is_paren s) = pda_scan stack s.
Proof.
  induction s as [|c s IH]; intros stack; [reflexivity|].
  cbn [filter_chars pda_scan]. unfold is_paren.
  destruct (Ascii.eqb c "(") eqn:Eo; cbn [orb].
  - cbn [pda_scan]. rewrite Eo. apply IH.
  - destruct (Ascii.eqb c ")") eqn:Ec.
    + cbn [pda_scan]. rewrite Eo, Ec. destruct stack; [reflexivity | apply IH].
    + apply IH.
Qed.

(** C2. For every string the balance checker answers Balanced exactly
    when the parentheses of the string are properly nested (no prefix
    has more closing than opening ones, and the totals agree); it
    answers Unbalanced otherwise, and the characters other than the two
    parentheses have no effect on the answer. *)
Theorem check_pda_balanced_iff_properly_nested (s : string) :
  (check_pda_balanced s = "✓ Balanced" <-> properly_nested s)
  /\ (check_pda_balanced s = "✓ Balanced"
      \/ check_pda_balanced s = "✗ Unbalanced")
  /\ check_pda_balanced (filter_chars is_paren s) = check_pda_balanced s.
Proof.
  unfold check_pda_balanced, properly_nested. split; [|split].
  - rewrite pda_scan_spec. simpl. reflexivity.
  - generalize (@nil ascii). induction s as [|c s IH]; intros stack.
    + destruct stack; simpl; auto.
    + cbn [pda_scan]. destruct (Ascii.eqb c "("); [apply IH|].
      destruct (Ascii.eqb c ")"); [|apply IH].
      destruct stack; [auto | apply IH].
  - apply pda_scan_filter.
Qed.

(** ** The DFA check *)

Lemma all_chars_is01 (s : string) : all_chars is01 s = true <-> over01 s.
Proof.
  unfold over01. induction s as [|c s IH]; simpl.
  - split; [constructor | reflexivity].
  - rewrite andb_true_iff, IH, Forall_cons. unfold is01.
    rewrite orb_true_iff, !Ascii.eqb_eq. reflexivity.
Qed.

Lemma endswith_spec (p s : string) : endswith p s = true <-> ends_in p s.
Proof.
  unfold ends_in. induction s as [|c s IH].
  - cbn [endswith]. rewrite orb_false_r, String.eqb_eq. split.
    + intros <-. by exists EmptyString.
    + intros [q H]. apply app_str_nil_inv in H as [_ ->]. reflexivity.
  - cbn [endswith]. rewrite orb_true_iff, String.eqb_eq, IH. split.
    + intros [<-|[q ->]]; [by exists EmptyString | by exists (String c q)].
    + intros [q H]. apply app_str_cons_inv in H as [[_ ->]|(q' & _ & ->)]; eauto.
Qed.

Lemma check_dfa_valid (s : string) :
  over01 s -> s <> EmptyString ->
  check_dfa_ends_01 s = if endswith "01" s then "✓ Accepted" else "✗ Rejected".
Proof.
  intros Ho Hne. unfold check_dfa_ends_01, fullmatch_class_plus.
  apply all_chars_is01 in Ho. destruct s; [done|]. by rewrite Ho.
Qed.

(** C3, as the code has it. An input made only of 0 and 1 that ends in
    01 is accepted; a non-empty input made only of 0 and 1 that does not
    end in 01 is rejected; an input with any other character gets the
    invalid-alphabet answer whatever its suffix. *)
Theorem check_dfa_ends_01_cases (s : string) :
  (over01 s -> ends_in "01" s -> check_dfa_ends_01 s = "✓ Accepted")
  /\ (over01 s -> s <> EmptyString -> ~ ends_in "01" s ->
      check_dfa_ends_01 s = "✗ Rejected")
  /\ (~ over01 s -> check_dfa_ends_01 s = "Invalid input: use only 0 and 1").
Proof.
  split; [|split].
  - intros Ho He. rewrite check_dfa_valid; [| done |].
    + apply endswith_spec in He. by rewrite He.
    + destruct He as [p ->]. by destruct p.
  - intros Ho Hne He. rewrite check_dfa_valid by done.
    destruct (endswith "01" s) eqn:E; [|done].
    apply endswith_spec in E. done.
  - intros Hn. unfold check_dfa_ends_01, fullmatch_class_plus.
    destruct s as [|c s]; [done|].
    destruct (all_chars is01 (String c s)) eqn:E; [|done].
    apply all_chars_is01 in E. done.
Qed.

Lemma check_dfa_ends_01_cases_witness :
  check_dfa_ends_01 "1101" = "✓ Accepted"
  /\ check_dfa_ends_01 "10" = "✗ Rejected"
  /\ check_dfa_ends_01 "012" = "Invalid input: use only 0 and 1".
Proof.
  split; [|split].
  - apply (check_dfa_ends_01_cases "1101").
    + apply all_chars_is01. reflexivity.
    + apply endswith_spec. reflexivity.
  - apply (check_dfa_ends_01_cases "10").
    + apply all_chars_is01. reflexivity.
    + discriminate.
    + intros H. apply endswith_spec in H. discriminate.
  - apply (check_dfa_ends_01_cases "012").
    intros H. apply all_chars_is01 in H. discriminate.
Defined.

(** C3 as stated fails on the empty string: it is made only of 0 and 1
    and does not end in 01, yet the answer is the invalid-alphabet one,
    not Rejected. *)
Lemma check_dfa_ends_01_empty_not_rejected :
  over01 EmptyString /\ ~ ends_in "01" EmptyString
  /\ check_dfa_ends_01 EmptyString = "Invalid input: use only 0 and 1"
  /\ check_dfa_ends_01 EmptyString <> "✗ Rejected".
Proof.
  split; [constructor|]. split; [|split; [reflexivity | discriminate]].
  intros H. apply endswith_spec in H. discriminate.
Qed.

(** C4, as the code has it. The empty string gets the invalid-alphabet
    answer, and every one-character string over 0 and 1 is rejected. *)
Theorem check_dfa_ends_01_short :
  check_dfa_ends_01 EmptyString = "Invalid input: use only 0 and 1"
  /\ forall c : ascii, c = "0"%char \/ c = "1"%char ->
       check_dfa_ends_01 (String c EmptyString) = "✗ Rejected".
Proof.
  split; [reflexivity|]. intros c [->| ->]; reflexivity.
Qed.

Lemma check_dfa_ends_01_short_witness :
  check_dfa_ends_01 (String "0" EmptyString) = "✗ Rejected"
  /\ check_dfa_ends_01 (String "1" EmptyString) = "✗ Rejected".
Proof.
  split.
  - apply (proj2 check_dfa_ends_01_short "0"%char). left. reflexivity.
  - apply (proj2 check_dfa_ends_01_short "1"%char). right. reflexivity.
Defined.

(** C4 as stated fails: the empty string is not answered with Rejected. *)
Lemma check_dfa_ends_01_empty_invalid :
  check_dfa_ends_01 EmptyString <> "✗ Rejected".
Proof. discriminate. Qed.

(** ** The dialogue history *)

Lemma length_deque_append {A} (n : nat) (d : list A) (x : A) :
  length d <= n -> length (deque_append n d x) <= n.
Proof.
  intros H. unfold deque_append.
  destruct (n <? length (d ++ [x])) eqn:E.
  - rewrite length_drop, length_app. simpl. lia.
  - apply Nat.ltb_ge in E. exact E.
Qed.

Lemma deque_append_keep_last {A} (n : nat) (d : list A) (x : A) :
  length d <= n -> deque_append n d x = keep_last n (d ++ [x]).
Proof.
  intros H. unfold deque_append, keep_last. rewrite length_app. simpl.
  destruct (n <? length d + 1) eqn:E.
  - apply Nat.ltb_lt in E. by replace (length d + 1 - n) with 1 by lia.
  - apply Nat.ltb_ge in E. by replace (length d + 1 - n) with 0 by lia.
Qed.

Lemma length_keep_last {A} (n : nat) (l : list A) :
  length (keep_last n l) = Nat.min n (length l).
Proof. unfold keep_last. rewrite length_drop. lia. Qed.

Lemma keep_last_app_keep_last {A} (n : nat) (a b : list A) :
  keep_last n (keep_last n a ++ b) = keep_last n (a ++ b).
Proof.
  unfold keep_last.
  rewrite length_app, length_drop, length_app.
  rewrite <- (drop_app_le a b (length a - n)) by lia.
  rewrite drop_drop. f_equal. lia.
Qed.

Lemma length_run_ops (ops : list history_op) : forall h,
  length h <= 30 -> length (run_ops ops h) <= 30.
Proof.
  induction ops as [|op ops IH]; intros h Hh; [exact Hh|].
  apply IH. destruct op; simpl.
  - by apply (length_deque_append 30).
  - lia.
Qed.

Lemma foldl_add_turn (ts : list Turn) : forall h,
  length h <= 30 -> foldl add_turn h ts = keep_last 30 (h ++ ts).
Proof.
  induction ts as [|t ts IH]; intros h Hh; simpl.
  - rewrite app_nil_r. unfold keep_last.
    by replace (length h - 30) with 0 by lia.
  - rewrite IH.
    + unfold add_turn, DialogueManager.add, DialogueManager.maxlen.
      destruct t as [r m ts']. simpl.
      rewrite deque_append_keep_last by done.
      rewrite keep_last_app_keep_last, <- app_assoc. reflexivity.
    + by apply (length_deque_append 30).
Qed.

(** C6. Starting from the empty history, no run of add and clear
    operations makes the history longer than 30; after 31 additions the
    length is 30 and the history is the additions without the first, so
    its oldest entry is the one added second; clearing then leaves
    length 0. *)
Theorem history_bounded_fifo :
  (forall ops, length (run_ops ops DialogueManager.init) <= 30)
  /\ (forall turns : list Turn, length turns = 31 ->
      let h := foldl add_turn DialogueManager.init turns in
      length h = 30 /\ h = drop 1 turns /\ h !! 0 = turns !! 1
      /\ length (DialogueManager.clear h) = 0).
Proof.
  split.
  - intros ops. apply length_run_ops. simpl. lia.
  - intros turns Hlen h.
    assert (Hh : h = drop 1 turns).
    { unfold h. rewrite foldl_add_turn by (simpl; lia).
      unfold keep_last. simpl. by rewrite Hlen. }
    rewrite Hh. repeat split.
    + rewrite length_drop. lia.
    + by rewrite lookup_drop.
Qed.

Lemma history_bounded_fifo_witness :
  let h := foldl add_turn DialogueManager.init (map numbered_turn (seq 1 31)) in
  length h = 30 /\ h = drop 1 (map numbered_turn (seq 1 31))
  /\ h !! 0 = Some (numbered_turn 2)
  /\ length (DialogueManager.clear h) = 0.
Proof.
  apply (proj2 history_bounded_fifo (map numbered_turn (seq 1 31))).
  reflexivity.
Defined.

(** ** Stripping and tokenizing *)

Lemma lstrip_empty (s : string) : lstrip s = EmptyString <-> all_chars isspace s = true.
Proof.
  induction s as [|c s IH]; simpl; [done|].
  destruct (isspace c); simpl; [exact IH | done].
Qed.

Lemma lstrip_head (s : string) c r : lstrip s = String c r -> isspace c = false.
Proof.
  induction s as [|d s IH]; simpl; [done|].
  destruct (isspace d) eqn:E; [exact IH|]. by intros [= <- _].
Qed.

Lemma rstrip_empty (s : string) : rstrip s = EmptyString <-> all_chars isspace s = true.
Proof.
  induction s as [|c s IH]; simpl; [done|].
  destruct (rstrip s) eqn:E.
  - destruct (isspace c); simpl; [|done]. split; [|done]. intros _. by apply IH.
  - split; [done|]. intros [_ H]%andb_true_iff. apply IH in H. done.
Qed.

Lemma strip_empty (s : string) : strip s = EmptyString <-> all_chars isspace s = true.
Proof.
  unfold strip. rewrite rstrip_empty, <- (lstrip_empty s).
  destruct (lstrip s) as [|c r] eqn:E; [split; done|].
  apply lstrip_head in E. simpl. rewrite E. split; done.
Qed.

Lemma split_ws_go_lstrip (s : string) :
  split_ws_go [] (lstrip s) = split_ws_go [] s.
Proof.
  induction s as [|c s IH]; [done|].
  cbn [lstrip]. destruct (isspace c) eqn:E; [|done].
  cbn [split_ws_go]. rewrite E. exact IH.
Qed.

Lemma split_ws_go_rstrip (s : string) : forall cur,
  split_ws_go cur (rstrip s) = split_ws_go cur s.
Proof.
  induction s as [|c s IH]; intros cur; [done|].
  cbn [rstrip]. destruct (rstrip s) as [|d r] eqn:E.
  - destruct (isspace c) eqn:Ec.
    + cbn [split_ws_go]. rewrite Ec, <- IH. cbn [split_ws_go].
      by rewrite app_nil_r.
    + cbn [split_ws_go]. rewrite Ec, <- IH. reflexivity.
  - cbn [split_ws_go]. destruct (isspace c); rewrite <- IH; reflexivity.
Qed.

Lemma split_ws_strip (s : string) : split_ws (strip s) = split_ws s.
Proof.
  unfold split_ws, strip. by rewrite split_ws_go_rstrip, split_ws_go_lstrip.
Qed.

(** ** The whole-word search of the fallback heuristic *)

Lemma last_char_nonempty (w : string) c prev :
  head_char w = Some c -> last_char prev w = last_char None w.
Proof. destruct w; [done|]. reflexivity. Qed.

Lemma last_char_app (a b : string) prev :
  last_char prev (a +:+ b) = last_char (last_char prev a) b.
Proof. revert prev. induction a as [|c a IH]; intros prev; simpl; [done|apply IH]. Qed.

Lemma head_char_app (a b : string) c :
  head_char a = Some c -> head_char (a +:+ b) = Some c.
Proof. destruct a; [done|]. simpl. done. Qed.

Lemma match_literal_spec (w : string) : forall prev s last rest,
  match_literal w prev s = Some (last, rest) <->
  s = w +:+ rest /\ last = last_char prev w.
Proof.
  induction w as [|a w IH]; intros prev s last rest; simpl.
  - split; [by intros [= -> ->] | by intros [-> ->]].
  - destruct s as [|b s]; [split; [done | by intros [? _]]|].
    destruct (Ascii.eqb a b) eqn:E.
    + apply Ascii.eqb_eq in E as ->. rewrite IH. split.
      * by intros [-> ->].
      * by intros [[= ->] ->].
    + apply Ascii.eqb_neq in E. split; [done|]. intros [[= ? _] _]. done.
Qed.

Lemma wordy_inv (w : string) :
  wordy w = true ->
  exists c, head_char w = Some c /\ isword c = true
            /\ opt_isword (last_char None w) = true.
Proof.
  unfold wordy. intros [H1 H2]%andb_true_iff.
  destruct w as [|c w]; [done|]. exists c. done.
Qed.

Lemma match_word_here_spec (words : list string) prev (s : string) :
  forallb wordy words = true ->
  match_word_here words prev s = true <->
  exists w post, s = w +:+ post /\ In w words
                 /\ opt_isword prev = false
                 /\ opt_isword (head_char post) = false.
Proof.
  intros Hw. rewrite forallb_forall in Hw. unfold match_word_here.
  rewrite andb_true_iff, existsb_exists. split.
  - intros [Hb (w & Hin & Hm)].
    destruct (match_literal w prev s) as [[last rest]|] eqn:E; [|done].
    apply match_literal_spec in E as [-> ->].
    destruct (wordy_inv w (Hw w Hin)) as (c & Hc & Hcw & Hl).
    exists w, rest. repeat split; [done|..].
    + rewrite (head_char_app _ _ _ Hc) in Hb. unfold word_boundary in Hb.
      simpl in Hb. rewrite Hcw in Hb. by destruct (opt_isword prev).
    + rewrite (last_char_nonempty _ _ _ Hc) in Hm. unfold word_boundary in Hm.
      rewrite Hl in Hm. by destruct (opt_isword (head_char rest)).
  - intros (w & post & -> & Hin & Hp & Hn).
    destruct (wordy_inv w (Hw w Hin)) as (c & Hc & Hcw & Hl). split.
    + rewrite (head_char_app _ _ _ Hc). unfold word_boundary.
      rewrite Hp. simpl. by rewrite Hcw.
    + exists w. split; [done|].
      destruct (match_literal w prev (w +:+ post)) as [[last rest]|] eqn:E.
      * apply match_literal_spec in E as [E ->].
        apply String.app_inj in E as <-.
        rewrite (last_char_nonempty _ _ _ Hc). unfold word_boundary.
        by rewrite Hl, Hn.
      * assert (H : match_literal w prev (w +:+ post)
                    = Some (last_char prev w, post))
          by by apply match_literal_spec.
        congruence.
Qed.

Lemma search_word_spec (words : list string) (s : string) :
  forallb wordy words = true ->
  forall prev,
  search_word words prev s = true <->
  exists pre w post,
    s = pre +:+ w +:+ post /\ In w words
    /\ opt_isword (last_char prev pre) = false
    /\ opt_isword (head_char post) = false.
Proof.
  intros Hw. induction s as [|c s IH]; intros prev; cbn [search_word];
    rewrite orb_true_iff, (match_word_here_spec _ _ _ Hw).
  - split.
    + intros [(w & post & E & H)|]; [|done]. by exists EmptyString, w, post.
    + intros (pre & w & post & E & H). left.
      destruct pre; [|done]. by exists w, post.
  - rewrite IH. split.
    + intros [(w & post & E & H)|(pre & w & post & -> & H)].
      * by exists EmptyString, w, post.
      * by exists (String c pre), w, post.
    + intros (pre & w & post & E & Hin & Hp & Hn).
      destruct pre as [|d pre].
      * left. by exists w, post.
      * right. simpl in E. injection E as -> ->. by exists pre, w, post.
Qed.

(** C9. Without a tagger: an empty or whitespace-only sentence gets the
    empty answer; otherwise fewer than three whitespace-separated tokens
    give Too short; otherwise the answer is Probably valid exactly when
    the lower-cased trimmed text contains one of the fixed verb forms as
    a whole word, and Seems incomplete exactly when it does not. *)
Theorem parse_sentence_fallback (sentence : string) :
  (all_chars isspace sentence = true ->
   parse_sentence None sentence = Some "✗ Empty sentence.")
  /\ (all_chars isspace sentence = false ->
      length (split_ws sentence) < 3 ->
      parse_sentence None sentence = Some "✗ Too short to be valid.")
  /\ (all_chars isspace sentence = false ->
      3 <= length (split_ws sentence) ->
      (parse_sentence None sentence
       = Some "✓ Probably valid English sentence."
       <-> contains_whole_word aux_forms (lower (strip sentence)))
      /\ (parse_sentence None sentence
          = Some "✗ Seems incomplete or incorrect."
          <-> ~ contains_whole_word aux_forms (lower (strip sentence)))).
Proof.
  unfold parse_sentence, contains_whole_word.
  rewrite split_ws_strip.
  rewrite <- (search_word_spec aux_forms (lower (strip sentence)) eq_refl None).
  split; [|split].
  - intros H. apply strip_empty in H. by rewrite H.
  - intros H Hl. destruct (String.eqb_spec (strip sentence) EmptyString) as [E|E].
    + apply strip_empty in E. congruence.
    + apply Nat.ltb_lt in Hl. by rewrite Hl.
  - intros H Hl. destruct (String.eqb_spec (strip sentence) EmptyString) as [E|E].
    + apply strip_empty in E. congruence.
    + apply Nat.ltb_ge in Hl. rewrite Hl.
      destruct (search_word aux_forms None (lower (strip sentence))); done.
Qed.

Lemma parse_sentence_fallback_witness :
  parse_sentence None "   " = Some "✗ Empty sentence."
  /\ parse_sentence None "the cat" = Some "✗ Too short to be valid."
  /\ (parse_sentence None "The cat IS here"
      = Some "✓ Probably valid English sentence."
      <-> contains_whole_word aux_forms (lower (strip "The cat IS here"))).
Proof.
  split; [|split].
  - apply (parse_sentence_fallback "   "). reflexivity.
  - apply (parse_sentence_fallback "the cat"); [reflexivity | vm_compute; lia].
  - apply (parse_sentence_fallback "The cat IS here");
      [reflexivity | vm_compute; lia].
Defined.

(** ** The classifier: the regex command *)

Lemma lower_char_colon (c : ascii) :
  Ascii.eqb (lower_char c) ":" = Ascii.eqb c ":".
Proof. by destruct c as [[] [] [] [] [] [] [] []]. Qed.

Lemma count_colon_lower (s : string) : count ":" (lower s) = count ":" s.
Proof.
  induction s as [|c s IH]; [done|]. simpl.
  by rewrite lower_char_colon, IH.
Qed.

Lemma startswith_count c (p : string) : forall s,
  startswith p s = true -> count c p <= count c s.
Proof.
  induction p as [|a p IH]; intros s; simpl; [lia|].
  destruct s as [|b s]; [done|].
  intros [->%Ascii.eqb_eq H]%andb_true_iff. apply IH in H. simpl. lia.
Qed.

Lemma split_once_first sep (head tail : string) :
  count sep head = 0 ->
  split_once sep (head +:+ String sep tail) = [head; tail].
Proof.
  induction head as [|c head IH]; simpl; intros H.
  - by rewrite Ascii.eqb_refl.
  - destruct (Ascii.eqb c sep) eqn:E; [done|]. by rewrite IH.
Qed.

Lemma split_on_first sep (pat rest : string) :
  count sep pat = 0 ->
  split_on sep (pat +:+ String sep rest) = pat :: split_on sep rest.
Proof.
  induction pat as [|c pat IH]; simpl; intros H.
  - by rewrite Ascii.eqb_refl.
  - destruct (Ascii.eqb c sep) eqn:E; [done|]. by rewrite IH.
Qed.

Lemma split_on_none sep (s : string) : count sep s = 0 -> split_on sep s = [s].
Proof.
  induction s as [|c s IH]; simpl; intros H; [done|].
  destruct (Ascii.eqb c sep) eqn:E; [done|]. by rewrite IH.
Qed.

Lemma split_on_nonempty sep (s : string) : split_on sep s <> [].
Proof.
  destruct s as [|c s]; simpl; [done|].
  destruct (Ascii.eqb c sep); [done|]. by destruct (split_on sep s).
Qed.

Lemma join_cons sep (a b : string) (l : list string) :
  join sep (a :: b :: l) = a +:+ sep +:+ join sep (b :: l).
Proof. reflexivity. Qed.

Lemma join_split_on sep (s : string) :
  join (String sep EmptyString) (split_on sep s) = s.
Proof.
  induction s as [|c s IH]; [done|]. cbn [split_on].
  pose proof (split_on_nonempty sep s) as Hne.
  destruct (Ascii.eqb c sep) eqn:E.
  - apply Ascii.eqb_eq in E as ->.
    destruct (split_on sep s) as [|w ws] eqn:Es; [done|].
    by rewrite join_cons, IH.
  - destruct (split_on sep s) as [|w ws] eqn:Es; [done|].
    destruct ws as [|w' ws].
    + simpl in *. by rewrite IH.
    + rewrite join_cons in *. rewrite <- IH. reflexivity.
Qed.

Lemma first_semicolon (tail : string) :
  exists pat rest, splits_at_first_semicolon tail pat rest.
Proof.
  unfold splits_at_first_semicolon.
  induction tail as [|c tail (pat & rest & IH)].
  - exists EmptyString, EmptyString. by right.
  - destruct (Ascii.eqb c ";") eqn:E.
    + apply Ascii.eqb_eq in E as ->. exists EmptyString, tail. by left.
    + destruct IH as [[-> H]|(H & -> & ->)].
      * exists (String c pat), rest. left. simpl. by rewrite E.
      * exists (String c tail), EmptyString. right. simpl. by rewrite E.
Qed.

Lemma lstrip_decompose (s : string) :
  exists ws, s = ws +:+ lstrip s /\ all_chars isspace ws = true.
Proof.
  induction s as [|c s (ws & IH & Hws)]; [by exists EmptyString|].
  simpl. destruct (isspace c) eqn:E.
  - exists (String c ws). simpl. by rewrite E, <- IH.
  - by exists EmptyString.
Qed.

Lemma lstrip_app_spaces (ws : string) c r :
  all_chars isspace ws = true -> isspace c = false ->
  lstrip (ws +:+ String c r) = String c r.
Proof.
  intros Hws Hc. induction ws as [|d ws IH]; simpl in *.
  - by rewrite Hc.
  - apply andb_true_iff in Hws as [-> Hws]. by apply IH.
Qed.

Lemma lstrip_idem (s : string) : lstrip (lstrip s) = lstrip s.
Proof.
  destruct (lstrip s) as [|c r] eqn:E; [done|].
  apply lstrip_head in E. simpl. by rewrite E.
Qed.

Lemma strip_lstrip (s : string) : strip (lstrip s) = strip s.
Proof. unfold strip. by rewrite lstrip_idem. Qed.

Lemma match_literal_ci_spec (w : string) : forall s r,
  match_literal_ci w s = Some r <-> exists kw, s = kw +:+ r /\ lower kw = w.
Proof.
  induction w as [|a w IH]; intros s r; simpl.
  - split.
    + intros [= ->]. by exists EmptyString.
    + intros (kw & -> & H). by destruct kw.
  - destruct s as [|b s].
    + split; [done|]. intros (kw & H & Hl). by destruct kw.
    + destruct (Ascii.eqb a (lower_char b)) eqn:E.
      * apply Ascii.eqb_eq in E as ->. rewrite IH. split.
        -- intros (kw & -> & <-). by exists (String b kw).
        -- intros (kw & H & Hl). destruct kw as [|b' kw]; [done|].
           simpl in H, Hl. injection H as -> ->. injection Hl as Hl. eauto.
      * apply Ascii.eqb_neq in E. split; [done|].
        intros (kw & H & Hl). destruct kw as [|b' kw]; [done|].
        simpl in H, Hl. injection H as -> ->. injection Hl as Hb _. congruence.
Qed.

Lemma match_string_field_here_spec (s g : string) :
  match_string_field_here s = Some g <->
  exists post, field_marker_at s EmptyString post /\ g = lstrip post.
Proof.
  unfold match_string_field_here, field_marker_at. split.
  - destruct (match_literal_ci "string" s) as [s1|] eqn:E; [|done].
    apply match_literal_ci_spec in E as (kw & -> & Hkw).
    destruct (lstrip_decompose s1) as (ws & Hs1 & Hws).
    destruct (lstrip s1) as [|c s2]; [done|].
    destruct (Ascii.eqb_spec c ":") as [->|Hc].
    + intros [= <-]. exists s2. split; [|done]. exists kw, ws. by rewrite <- Hs1.
    + intros H. exfalso. revert H.
      by destruct c as [[] [] [] [] [] [] [] []].
  - intros (post & (kw & ws & Hs & Hkw & Hws) & ->).
    simpl in Hs. subst s.
    assert (E : match_literal_ci "string" (kw +:+ ws +:+ String ":" post)
                = Some (ws +:+ String ":" post)).
    { apply match_literal_ci_spec. by exists kw. }
    rewrite E, lstrip_app_spaces; done.
Qed.

Lemma field_marker_at_cons c (s pre post : string) :
  field_marker_at (String c s) (String c pre) post <-> field_marker_at s pre post.
Proof.
  unfold field_marker_at. split; intros (kw & ws & H & ?); exists kw, ws.
  - simpl in H. by injection H as ->.
  - simpl. by rewrite H.
Qed.

Lemma field_marker_at_inv c (s pre post : string) :
  field_marker_at (String c s) pre post ->
  (pre = EmptyString /\ field_marker_at (String c s) EmptyString post)
  \/ exists pre', pre = String c pre' /\ field_marker_at s pre' post.
Proof.
  intros H. destruct pre as [|d pre]; [by left|]. right.
  assert (d = c) as ->.
  { destruct H as (kw & ws & H & _). simpl in H. by injection H. }
  exists pre. split; [done|]. by apply field_marker_at_cons in H.
Qed.

Lemma no_field_marker_here (s : string) :
  match_string_field_here s = None -> forall post, ~ field_marker_at s EmptyString post.
Proof.
  intros E post H.
  assert (match_string_field_here s = Some (lstrip post)); [|congruence].
  apply match_string_field_here_spec. eauto.
Qed.

Lemma search_string_field_spec (s : string) :
  match search_string_field s with
  | Some g => exists pre post, first_field_marker s pre post /\ g = lstrip post
  | None => forall pre post, ~ field_marker_at s pre post
  end.
Proof.
  induction s as [|c s IH]; cbn [search_string_field].
  - change (match_string_field_here EmptyString) with (@None string).
    intros pre post (kw & ws & H & Hkw & _).
    apply app_str_nil_inv in H as [_ H].
    symmetry in H. apply app_str_nil_inv in H as [-> _]. done.
  - destruct (match_string_field_here (String c s)) as [g|] eqn:E.
    + apply match_string_field_here_spec in E as (post & H & ->).
      exists EmptyString, post. repeat split; [done|]. intros. simpl. lia.
    + pose proof (no_field_marker_here _ E) as Hno.
      destruct (search_string_field s) as [g|].
      * destruct IH as (pre & post & [Hm Hfirst] & ->).
        exists (String c pre), post. repeat split.
        -- by apply field_marker_at_cons.
        -- intros pre' post' H'.
           apply field_marker_at_inv in H' as [[_ H']|(p & -> & H')].
           ++ by apply Hno in H'.
           ++ apply Hfirst in H'. simpl. lia.
      * intros pre post H.
        apply field_marker_at_inv in H as [[_ H]|(p & -> & H)].
        -- by apply Hno in H.
        -- by apply IH in H.
Qed.

Lemma regex_prefix_excludes (l : string) :
  startswith "regex:" l = true ->
  String.eqb l "help" = false /\ String.eqb l "clear" = false
  /\ startswith "parse:" l = false /\ startswith "dfa:" l = false
  /\ startswith "pda:" l = false.
Proof.
  destruct l as [|a l]; [done|]. cbn [startswith].
  intros [Ha _]%andb_true_iff. apply Ascii.eqb_eq in Ha as <-.
  repeat split; reflexivity.
Qed.

(** The regex branch, with the pieces named. *)
Lemma classify_regex_branch (text tail pat rest : string) :
  startswith "regex:" (lower (strip text)) = true ->
  contains "daily conversation" (lower (strip text)) = false ->
  contains "everyday chat" (lower (strip text)) = false ->
  remainder_after_first ":" (strip text) tail ->
  splits_at_first_semicolon tail pat rest ->
  classify text
  = Some (Regex, {[ "pattern" := strip pat;
                    "string" := match search_string_field rest with
                                | Some g => strip g
                                | None => EmptyString
                                end ]}).
Proof.
  intros Hre Hd1 Hd2 (head & Ht & Hhead) Hsplit. unfold classify.
  destruct (regex_prefix_excludes _ Hre) as (-> & -> & -> & -> & ->).
  rewrite Hd1, Hd2, Hre. cbn [orb].
  rewrite Ht, split_once_first by done. cbn [lookup list_lookup].
  destruct Hsplit as [[-> Hpat]|(Hnone & -> & ->)].
  - rewrite split_on_first by done. cbn [lookup list_lookup drop].
    by rewrite drop_0, join_split_on.
  - rewrite split_on_none by done. reflexivity.
Qed.

Lemma first_separator sep (s : string) :
  0 < count sep s -> exists tail, remainder_after_first sep s tail.
Proof.
  unfold remainder_after_first. induction s as [|c s IH]; simpl; [lia|].
  destruct (Ascii.eqb c sep) eqn:E.
  - apply Ascii.eqb_eq in E as ->. intros _. by exists s, EmptyString.
  - intros H. destruct IH as (tail & head & -> & Hh); [lia|].
    exists tail, (String c head). simpl. by rewrite E.
Qed.

(** C5, as the code has it. For a text whose trimmed lower-cased form
    starts with regex: (and has neither daily-chat phrase), the remainder
    after the first colon splits at its first semicolon into the pattern
    (trimmed) and a rest; the string parameter is what follows the FIRST
    marker in the rest (the word string in any case, optional
    whitespace, a colon), trimmed, newlines included, and it is empty
    when the rest has no marker; the intent is regex. *)
Theorem classify_regex_first_marker (text : string) :
  startswith "regex:" (lower (strip text)) = true ->
  contains "daily conversation" (lower (strip text)) = false ->
  contains "everyday chat" (lower (strip text)) = false ->
  exists tail pat rest s,
    remainder_after_first ":" (strip text) tail
    /\ splits_at_first_semicolon tail pat rest
    /\ classify text
       = Some (Regex, {[ "pattern" := strip pat; "string" := s ]})
    /\ ((exists pre post, first_field_marker rest pre post /\ s = strip post)
        \/ ((forall pre post, ~ field_marker_at rest pre post) /\ s = EmptyString)).
Proof.
  intros Hre Hd1 Hd2.
  destruct (first_separator ":" (strip text)) as [tail Hrem].
  { pose proof (startswith_count ":" _ _ Hre) as H.
    rewrite count_colon_lower in H. simpl in H. lia. }
  destruct (first_semicolon tail) as (pat & rest & Hsplit).
  exists tail, pat, rest. eexists. split; [exact Hrem|].
  split; [exact Hsplit|]. split.
  - by apply (classify_regex_branch text tail pat rest).
  - pose proof (search_string_field_spec rest) as H.
    destruct (search_string_field rest) as [g|].
    + left. destruct H as (pre & post & Hfirst & ->).
      exists pre, post. by rewrite strip_lstrip.
    + by right.
Qed.

Lemma classify_regex_first_marker_witness :
  exists tail pat rest s,
    remainder_after_first ":" (strip "regex: a+; string: aaa") tail
    /\ splits_at_first_semicolon tail pat rest
    /\ classify "regex: a+; string: aaa"
       = Some (Regex, {[ "pattern" := strip pat; "string" := s ]})
    /\ ((exists pre post, first_field_marker rest pre post /\ s = strip post)
        \/ ((forall pre post, ~ field_marker_at rest pre post) /\ s = EmptyString)).
Proof.
  apply (classify_regex_first_marker "regex: a+; string: aaa"); reflexivity.
Defined.

(** The example of the specification. *)
Example classify_regex_example :
  classify "regex: a+; string: aaa"
  = Some (Regex, {[ "pattern" := "a+"; "string" := "aaa" ]}).
Proof. vm_compute. reflexivity. Qed.

(** C5 as stated fails when the rest has two markers: the code returns
    what follows the first one, the claim what follows the final one. *)
Lemma classify_regex_not_final_marker :
  let text := "regex: a+; string: aaa string: b" in
  let rest := " string: aaa string: b" in
  strip text = "regex" +:+ ":" +:+ " a+" +:+ ";" +:+ rest
  /\ classify text
     = Some (Regex, {[ "pattern" := "a+"; "string" := "aaa string: b" ]})
  /\ spec_string_param rest = "b"
  /\ classify text
     <> Some (Regex, {[ "pattern" := "a+"; "string" := spec_string_param rest ]}).
Proof.
  intros text rest. subst text rest.
  assert (E : classify "regex: a+; string: aaa string: b"
              = Some (Regex, {[ "pattern" := "a+"; "string" := "aaa string: b" ]}))
    by (vm_compute; reflexivity).
  split; [reflexivity|]. split; [exact E|].
  split; [vm_compute; reflexivity|].
  rewrite E. intros H.
  apply (f_equal (fun o : option (intent * gmap string string) =>
                    p ← o; snd p !! "string")) in H.
  vm_compute in H. discriminate.
Qed.

(** C10. A regex command without a semicolon after the prefix is still
    a regex command: the pattern is the whole remainder after the first
    colon, trimmed, and the string is empty; in particular the bare
    input regex: gives an empty pattern and an empty string. *)
Theorem classify_regex_no_semicolon :
  (forall text tail : string,
     startswith "regex:" (lower (strip text)) = true ->
     contains "daily conversation" (lower (strip text)) = false ->
     contains "everyday chat" (lower (strip text)) = false ->
     remainder_after_first ":" (strip text) tail ->
     count ";" tail = 0 ->
     classify text = Some (Regex, {[ "pattern" := strip tail; "string" := EmptyString ]}))
  /\ classify "regex:" = Some (Regex, {[ "pattern" := EmptyString; "string" := EmptyString ]}).
Proof.
  split; [|vm_compute; reflexivity].
  intros text tail Hre Hd1 Hd2 Hrem Hnone.
  rewrite (classify_regex_branch text tail tail EmptyString) by (done || by right).
  reflexivity.
Qed.

Lemma classify_regex_no_semicolon_witness :
  classify "  Regex: [ab]*c  "
  = Some (Regex, {[ "pattern" := strip " [ab]*c"; "string" := EmptyString ]}).
Proof.
  apply (proj1 classify_regex_no_semicolon "  Regex: [ab]*c  " " [ab]*c");
    [reflexivity | reflexivity | reflexivity | | reflexivity].
  exists "Regex". split; reflexivity.
Defined.

(** ** The classifier never raises *)

Lemma split_once_second sep (s : string) :
  0 < count sep s -> exists a b, split_once sep s = [a; b].
Proof.
  induction s as [|c s IH]; simpl; [lia|].
  destruct (Ascii.eqb c sep); [eauto|].
  intros H. destruct IH as (a & b & ->); [lia|]. eauto.
Qed.

Lemma after_colon (p : string) (text : string) :
  0 < count ":" p ->
  startswith p (lower (strip text)) = true ->
  exists v, split_once ":" (strip text) !! 1 = Some v.
Proof.
  intros Hp H. apply (startswith_count ":") in H.
  rewrite count_colon_lower in H.
  destruct (split_once_second ":" (strip text)) as (a & b & ->); [lia|].
  by exists b.
Qed.

Lemma classify_total (text : string) :
  exists i params, classify text = Some (i, params).
Proof.
  unfold classify.
  destruct (String.eqb _ "help"); [eauto|].
  destruct (String.eqb _ "clear"); [eauto|].
  destruct (contains _ _ || contains _ _); [eauto|].
  destruct (startswith "parse:" _) eqn:E1.
  { apply after_colon in E1 as [v ->]; [|simpl; lia]. simpl. eauto. }
  destruct (startswith "dfa:" _) eqn:E2.
  { apply after_colon in E2 as [v ->]; [|simpl; lia]. simpl. eauto. }
  destruct (startswith "pda:" _) eqn:E3.
  { apply after_colon in E3 as [v ->]; [|simpl; lia]. simpl. eauto. }
  destruct (startswith "regex:" _).
  { destruct (_ !! 1); [|eauto]. destruct (_ !! 0); eauto. }
  destruct (match_class_plus_eol _ _); eauto.
Qed.


(** ** The orchestrator *)

Lemma deque_append_drop {A} (n : nat) (d : list A) (x : A) :
  1 <= n ->
  exists k, deque_append n d x = drop k d ++ [x]
            /\ (k = 0 \/ (k = 1 /\ n <= length d)).
Proof.
  intros Hn. unfold deque_append.
  destruct (n <? length (d ++ [x])) eqn:E.
  - apply Nat.ltb_lt in E. rewrite length_app in E. simpl in E.
    exists 1. split; [|right; lia].
    destruct d; simpl in *; [lia|]. by rewrite drop_0.
  - exists 0. by split; [|left].
Qed.

Lemma add_add_keep_last now1 now2 (text reply : string) (history : list Turn) :
  length history <= 30 ->
  DialogueManager.add now2 "assistant" reply
    (DialogueManager.add now1 "user" text history)
  = keep_last 30 (history ++ [user_turn now1 text; assistant_turn now2 reply]).
Proof.
  intros H. unfold DialogueManager.add, DialogueManager.maxlen.
  fold (user_turn now1 text). fold (assistant_turn now2 reply).
  rewrite (deque_append_keep_last 30 history) by done.
  rewrite deque_append_keep_last by (rewrite length_keep_last; lia).
  by rewrite keep_last_app_keep_last, <- app_assoc.
Qed.

Lemma add_add_suffix now1 now2 (text reply : string) (history : list Turn) :
  exists k,
    DialogueManager.add now2 "assistant" reply
      (DialogueManager.add now1 "user" text history)
    = drop k history ++ [user_turn now1 text; assistant_turn now2 reply].
Proof.
  unfold DialogueManager.add, DialogueManager.maxlen.
  fold (user_turn now1 text). fold (assistant_turn now2 reply).
  destruct (deque_append_drop 30 history (user_turn now1 text))
    as (k1 & -> & Hk1); [lia|].
  destruct (deque_append_drop 30 (drop k1 history ++ [user_turn now1 text])
              (assistant_turn now2 reply)) as (k2 & -> & Hk2); [lia|].
  exists (k1 + k2). destruct Hk2 as [->|[-> Hl]].
  - by rewrite drop_0, Nat.add_0_r, <- app_assoc.
  - rewrite length_app in Hl. simpl in Hl.
    rewrite drop_app_le by lia. by rewrite drop_drop, <- app_assoc.
Qed.

Section Orchestrator.

Variable nlp : option (string -> option (list tagged)).
Variable re_fullmatch : string -> string -> re_outcome.
Variable SYMPY_AVAILABLE : bool.
Variable sympy_N : string -> py_outcome.
Variable py_eval : string -> py_outcome.
Variable REQUESTS_AVAILABLE : bool.
Variable api_key : option string.
Variable remote_chat : string -> list Turn -> string.

#[local] Abbreviation chat' :=
  (chat nlp re_fullmatch SYMPY_AVAILABLE sympy_N py_eval
     REQUESTS_AVAILABLE api_key remote_chat).


(** C8. When the chat collaborator is unavailable, a text with the
    daily-chat phrase gets the not-configured reply, and the user
    turn and that reply are the last two entries of the history
    afterwards, behind what the bounded add kept of the old ones. *)
Theorem chat_daily_not_configured now1 now2 (text : string)
    (history : list Turn) :
  PerplexityClient.is_available REQUESTS_AVAILABLE api_key = false ->
  contains "daily conversation" (lower (strip text)) = true
  \/ contains "everyday chat" (lower (strip text)) = true ->
  exists history',
    chat' now1 now2 text history = Some (not_configured, history')
    /\ history'
       = DialogueManager.add now2 "assistant" not_configured
           (DialogueManager.add now1 "user" text history)
    /\ exists k, history'
                 = drop k history ++ [user_turn now1 text;
                                      assistant_turn now2 not_configured].
Proof.
  intros Hav Hd. eexists. split; [|split; [reflexivity|apply add_add_suffix]].
  unfold chat, classify.
  destruct (String.eqb_spec (lower (strip text)) "help") as [E|_].
  { rewrite E in Hd. by destruct Hd. }
  destruct (String.eqb_spec (lower (strip text)) "clear") as [E|_].
  { rewrite E in Hd. by destruct Hd. }
  assert (contains "daily conversation" (lower (strip text))
          || contains "everyday chat" (lower (strip text)) = true) as ->.
  { apply orb_true_iff. by destruct Hd; [left|right]. }
  simpl. by rewrite Hav.
Qed.

End Orchestrator.


Lemma chat_daily_not_configured_witness :
  exists history',
    chat None (fun _ _ => ReNoMatch) false (fun _ => Returned PyEmptyDict)
      (fun _ => Returned PyEmptyDict) true None (fun _ _ => EmptyString)
      "t1" "t2" "daily conversation, what's up" []
    = Some (not_configured, history')
    /\ history'
       = DialogueManager.add "t2" "assistant" not_configured
           (DialogueManager.add "t1" "user" "daily conversation, what's up" [])
    /\ exists k, history'
                 = drop k [] ++ [user_turn "t1" "daily conversation, what's up";
                                 assistant_turn "t2" not_configured].
Proof.
  apply (chat_daily_not_configured None (fun _ _ => ReNoMatch) false
           (fun _ => Returned PyEmptyDict) (fun _ => Returned PyEmptyDict)
           true None (fun _ _ => EmptyString) "t1" "t2"
           "daily conversation, what's up" []).
  - reflexivity.
  - left. reflexivity.
Defined.

(** ** The arithmetic evaluator *)

Section EvalModel.

Import PyEval.


(** What raises stays raised through the operators, and a call raises
    whenever the model follows it. *)









(** Where a call is written. *)



(** The parser reads what its result is written with. *)








(** The fuel [p_sum] is given is enough. *)

Lemma within_bind {A B} m n (res : presult (A * list token))
    (k : A * list token -> presult (B * list token)) :
  m <= n -> within m true res ->
  (forall e r, length r < m -> within (length r) false (k (e, r))) ->
  within n true (pbind res k).
Proof.
  intros Hmn H1 H2. destruct res as [[e r]| | |]; simpl in *; try done.
  specialize (H2 e r H1). destruct (k (e, r)) as [[e' r']| | |]; simpl in *;
    try done. lia.
Qed.

Lemma within_weaken {A} n (res : presult (A * list token)) :
  within n true res -> within n false res.
Proof. destruct res as [[e r]| | |]; simpl; try done. lia. Qed.

Lemma within_next {A} n (res : presult (A * list token)) :
  within n false res -> within (S n) true res.
Proof. destruct res as [[e r]| | |]; simpl; try done. lia. Qed.

Lemma within_more {A} m n (res : presult (A * list token)) :
  m <= n -> within m false res -> within n false res.
Proof. destruct res as [[e r]| | |]; simpl; try done. lia. Qed.

Lemma parser_fuel (fuel : nat) :
  (forall ts, 8 * length ts + 6 <= fuel ->
     within (length ts) true (p_sum fuel ts))
  /\ (forall lhs ts, 8 * length ts + 5 <= fuel ->
        within (length ts) false (p_sum_rest fuel lhs ts))
  /\ (forall ts, 8 * length ts + 4 <= fuel ->
        within (length ts) true (p_term fuel ts))
  /\ (forall lhs ts, 8 * length ts + 3 <= fuel ->
        within (length ts) false (p_term_rest fuel lhs ts))
  /\ (forall ts, 8 * length ts + 3 <= fuel ->
        within (length ts) true (p_factor fuel ts))
  /\ (forall ts, 8 * length ts + 2 <= fuel ->
        within (length ts) true (p_power fuel ts))
  /\ (forall ts, 8 * length ts + 1 <= fuel ->
        within (length ts) true (p_primary fuel ts))
  /\ (forall lhs ts, 8 * length ts + 1 <= fuel ->
        within (length ts) false (p_trailers fuel lhs ts))
  /\ (forall ts, 8 * length ts + 7 <= fuel ->
        within (length ts) true (p_args fuel ts)).
Proof.
  induction fuel
    as [|f (Hsum & Hsumr & Hterm & Htermr & Hfac & Hpow & Hprim & Htrail & Hargs)].
  { repeat split; intros; lia. }
  assert (Hstep_sum : forall op lhs t r,
            8 * length (t :: r) + 5 <= S f ->
            within (length (t :: r)) false
              (pbind (p_term f r)
                 (fun '(e, r') => p_sum_rest f (EBin op lhs e) r'))).
  { intros op lhs t r Hf. simpl in Hf. apply within_weaken.
    apply (within_bind (length r)); [simpl; lia | apply Hterm; lia |].
    intros e r' Hr'. apply Hsumr. lia. }
  assert (Hstep_term : forall op lhs t r,
            8 * length (t :: r) + 3 <= S f ->
            within (length (t :: r)) false
              (pbind (p_factor f r)
                 (fun '(e, r') => p_term_rest f (EBin op lhs e) r'))).
  { intros op lhs t r Hf. simpl in Hf. apply within_weaken.
    apply (within_bind (length r)); [simpl; lia | apply Hfac; lia |].
    intros e r' Hr'. apply Htermr. lia. }
  assert (Hstep_unary : forall (negate : bool) t r,
            8 * length (t :: r) + 3 <= S f ->
            within (length (t :: r)) true
              (pbind (p_factor f r) (fun '(e, r') => POk (EUnary negate e, r')))).
  { intros negate t r Hf. simpl in Hf.
    apply (within_bind (length r)); [simpl; lia | apply Hfac; lia |].
    intros e r' Hr'. simpl. lia. }
  assert (Hgroup : forall t r,
            8 * length (t :: r) + 1 <= S f ->
            within (length (t :: r)) true
              (pbind (p_sum f r)
                 (fun '(e, r') =>
                    match r' with
                    | TRParen :: r'' => p_trailers f (EParen e) r''
                    | TComma :: _ => PUnmodelled
                    | _ => PSyntax
                    end))).
  { intros t r Hf. simpl in Hf.
    apply (within_bind (length r)); [simpl; lia | apply Hsum; lia |].
    intros e r' Hr'. destruct r' as [|[] r'']; try done.
    apply (within_more (length r'')); [simpl; lia|].
    apply Htrail. simpl in Hr'. lia. }
  assert (Hatom : forall e t r,
            8 * length (t :: r) + 1 <= S f ->
            within (length (t :: r)) true (p_trailers f e r)).
  { intros e t r Hf. simpl in Hf. apply within_next, Htrail. lia. }
  repeat split.
  - intros ts Hf. cbn [p_sum].
    apply (within_bind (length ts)); [lia | apply Hterm; lia |].
    intros e r Hr. apply Hsumr. lia.
  - intros lhs ts Hf. cbn [p_sum_rest].
    destruct ts as [|[| | | | | | |[]| | | |] r];
      solve [simpl; lia | by apply Hstep_sum].
  - intros ts Hf. cbn [p_term].
    apply (within_bind (length ts)); [lia | apply Hfac; lia |].
    intros e r Hr. apply Htermr. lia.
  - intros lhs ts Hf. cbn [p_term_rest].
    destruct ts as [|[| | | | | | |[]| | | |] r];
      solve [simpl; lia | by apply Hstep_term].
  - intros ts Hf. cbn [p_factor].
    destruct ts as [|[| | | | | | |[]| | | |] r];
      solve [apply Hpow; lia | by apply Hstep_unary].
  - intros ts Hf. cbn [p_power].
    apply (within_bind (length ts)); [lia | apply Hprim; lia |].
    intros b r Hr. destruct r as [|[| | | | | | |[]| | | |] r'];
      try (simpl; lia).
    apply within_weaken.
    apply (within_bind (length r')); [simpl; lia | apply Hfac; simpl in *; lia |].
    intros e r'' Hr''. simpl. lia.
  - intros ts Hf. cbn [p_primary].
    destruct ts as [|[z| | |x|x| | |op| | | |] r]; try done;
      try by apply Hatom.
    destruct r as [|t r]; [by apply Hgroup|].
    destruct t as [| | | | | | |[]| | | |]; try (by apply Hgroup); done.
  - intros lhs ts Hf. cbn [p_trailers].
    destruct ts as [|[| | | | | | | | | | |] r]; try (simpl; lia).
    + assert (Hcall : within (length (TLParen :: r)) false
                (pbind (p_args f r)
                   (fun '(args, r') => p_trailers f (ECall lhs args) r'))).
      { simpl in Hf. apply within_weaken.
        apply (within_bind (length r)); [simpl; lia | apply Hargs; lia |].
        intros args r' Hr'. apply Htrail. lia. }
      destruct r as [|t r]; [exact Hcall|].
      destruct t; try exact Hcall.
      apply (within_more (length r)); [simpl; lia|].
      apply Htrail. simpl in Hf. lia.
    + destruct r as [|t r]; [done|]. destruct t; try done.
      apply (within_more (length r)); [simpl; lia|].
      apply Htrail. simpl in Hf. lia.
  - intros ts Hf. cbn [p_args]. destruct (starts_starred ts); [done|].
    apply (within_bind (length ts)); [lia | apply Hsum; lia |].
    intros a r Hr. destruct r as [|[] r']; try done.
    + simpl. lia.
    + assert (Hrest : within (length (TComma :: r')) false
                (pbind (p_args f r')
                   (fun '(rest, r'') => POk (a :: rest, r'')))).
      { apply within_weaken.
        apply (within_bind (length r')); [simpl; lia| |].
        - apply Hargs. simpl in *. lia.
        - intros rest r'' Hr''. simpl. lia. }
      destruct r' as [|t r']; [exact Hrest|].
      destruct t; try exact Hrest. done.
Qed.

Lemma p_sum_has_fuel (ts : list token) :
  p_sum (8 * length ts + 8) ts <> PFuel.
Proof.
  destruct (parser_fuel (8 * length ts + 8)) as (Hsum & _).
  specialize (Hsum ts). intros E. rewrite E in Hsum. apply Hsum. lia.
Qed.







End EvalModel.








(** * Further properties *)

(** ** The classifier *)

Lemma rstrip_cons c (s : string) :
  rstrip (String c s)
  = match rstrip s with
    | EmptyString => if isspace c then EmptyString else String c EmptyString
    | r => String c r
    end.
Proof. reflexivity. Qed.

Lemma rstrip_idem (s : string) : rstrip (rstrip s) = rstrip s.
Proof.
  induction s as [|c s IH]; [done|]. rewrite rstrip_cons.
  destruct (rstrip s) as [|d r] eqn:E.
  - destruct (isspace c) eqn:Ec; [done|]. rewrite rstrip_cons. simpl.
    by rewrite Ec.
  - by rewrite rstrip_cons, IH.
Qed.

Lemma rstrip_head c (s : string) :
  isspace c = false -> exists r, rstrip (String c s) = String c r.
Proof.
  intros Hc. rewrite rstrip_cons. destruct (rstrip s); [|by eauto].
  rewrite Hc. by eauto.
Qed.

Lemma strip_idem (s : string) : strip (strip s) = strip s.
Proof.
  unfold strip. destruct (lstrip s) as [|c r] eqn:E; [done|].
  pose proof (lstrip_head _ _ _ E) as Hc.
  destruct (rstrip_head c r Hc) as [r' Hr]. rewrite Hr.
  cbn [lstrip]. rewrite Hc, <- Hr. apply rstrip_idem.
Qed.

(** X1. The classifier reads its text only through the trimmed text:
    whitespace around a message never changes the intent or the
    parameters. *)
Theorem classify_ignores_outer_whitespace (text : string) :
  classify (strip text) = classify text.
Proof. unfold classify. by rewrite strip_idem. Qed.

(** X2. The classifier never raises: the unguarded [split(":", 1)[1]]
    of the parse, dfa and pda branches always finds its colon, whatever
    the case of the prefix, and every text gets an intent. *)
Theorem classify_never_raises (text : string) :
  classify text <> None
  /\ forall prefix, In prefix ["parse:"; "dfa:"; "pda:"; "regex:"] ->
       startswith prefix (lower (strip text)) = true ->
       exists head tail, split_once ":" (strip text) = [head; tail].
Proof.
  split.
  - destruct (classify_total text) as (i & p & ->). done.
  - intros prefix Hin H.
    apply split_once_second.
    apply (startswith_count ":") in H. rewrite count_colon_lower in H.
    assert (0 < count ":" prefix); [|lia].
    simpl in Hin. destruct Hin as [<-|[<-|[<-|[<-|[]]]]]; simpl; lia.
Qed.

Lemma classify_never_raises_witness :
  exists head tail, split_once ":" (strip "  PDA: (a:b)") = [head; tail].
Proof.
  apply (proj2 (classify_never_raises "  PDA: (a:b)") "pda:").
  - simpl. auto.
  - reflexivity.
Defined.

Ltac classify_cases H :=
  unfold classify in H;
  repeat match type of H with
         | (if ?b then _ else _) = _ => destruct b eqn:?
         | (match ?x with _ => _ end) = _ => destruct x eqn:?
         | (_ ≫= _) = _ => apply bind_Some in H as (? & ? & H)
         end;
  simplify_eq.

(** X3. The two meta-commands are exact matches of the trimmed,
    lower-cased text: the intent is help exactly for help and the clear
    command exactly for clear, with no parameter and with the parameter
    cmd = clear. *)
Theorem classify_meta_commands (text : string) (params : gmap string string) :
  (classify text = Some (Help, params)
   <-> lower (strip text) = "help" /\ params = ∅)
  /\ (classify text = Some (Command, params)
      <-> lower (strip text) = "clear" /\ params = {[ "cmd" := "clear" ]}).
Proof.
  split; split.
  - intros H. classify_cases H. split; [by apply String.eqb_eq | done].
  - intros [Hl ->]. unfold classify. by rewrite Hl.
  - intros H. classify_cases H. split; [by apply String.eqb_eq | done].
  - intros [Hl ->]. unfold classify. by rewrite Hl.
Qed.

(** X4. The daily-chat phrases win over every tool prefix: the intent is
    daily exactly when the trimmed, lower-cased text contains one of
    the two phrases, and the message parameter is then the trimmed text
    in its original case. *)
Theorem classify_daily (text : string) (params : gmap string string) :
  classify text = Some (Daily, params)
  <-> (contains "daily conversation" (lower (strip text)) = true
       \/ contains "everyday chat" (lower (strip text)) = true)
      /\ params = {[ "message" := strip text ]}.
Proof.
  split.
  - intros H. classify_cases H. split; [|done].
    by apply orb_true_iff.
  - intros [Hd ->]. unfold classify.
    destruct (String.eqb_spec (lower (strip text)) "help") as [E|_].
    { rewrite E in Hd. by destruct Hd. }
    destruct (String.eqb_spec (lower (strip text)) "clear") as [E|_].
    { rewrite E in Hd. by destruct Hd. }
    apply orb_true_iff in Hd. by rewrite Hd.
Qed.

Example classify_daily_beats_prefix :
  classify "parse: Daily Conversation please"
  = Some (Daily, {[ "message" := "parse: Daily Conversation please" ]}).
Proof. vm_compute. reflexivity. Qed.

Lemma startswith_exclusive (p : string) : forall q l,
  startswith p l = true -> startswith q p = false -> startswith p q = false ->
  startswith q l = false.
Proof.
  induction p as [|a p IH]; intros q l Hp Hqp Hpq; [done|].
  destruct l as [|b l]; [done|]. cbn [startswith] in Hp.
  apply andb_true_iff in Hp as [->%Ascii.eqb_eq Hp].
  destruct q as [|c q]; [done|]. cbn [startswith] in *.
  destruct (Ascii.eqb_spec c b) as [->|Hcb]; [|done].
  rewrite Ascii.eqb_refl in *. by apply IH.
Qed.

Lemma startswith_neq (p l w : string) :
  startswith p l = true -> startswith p w = false -> String.eqb l w = false.
Proof.
  intros Hp Hw. destruct (String.eqb_spec l w) as [->|]; [congruence | done].
Qed.

Lemma classify_tool_branch (text pfx key tail : string) (i : intent) :
  In (pfx, i, key)
    [("parse:", Parse, "sentence"); ("dfa:", Dfa, "input");
     ("pda:", Pda, "input")] ->
  startswith pfx (lower (strip text)) = true ->
  contains "daily conversation" (lower (strip text)) = false ->
  contains "everyday chat" (lower (strip text)) = false ->
  remainder_after_first ":" (strip text) tail ->
  classify text = Some (i, {[ key := strip tail ]}).
Proof.
  intros Hin Hp Hd1 Hd2 (head & Ht & Hhead). unfold classify.
  rewrite Hd1, Hd2. cbn [orb].
  rewrite (startswith_neq pfx _ "help" Hp),
          (startswith_neq pfx _ "clear" Hp);
    [| by simpl in Hin; destruct Hin as [[= <- _ _]|[[= <- _ _]|[[= <- _ _]|[]]]]
     | by simpl in Hin; destruct Hin as [[= <- _ _]|[[= <- _ _]|[[= <- _ _]|[]]]]].
  simpl in Hin.
  destruct Hin as [[= <- <- <-]|[[= <- <- <-]|[[= <- <- <-]|[]]]].
  - rewrite Hp, Ht, split_once_first by done. reflexivity.
  - rewrite (startswith_exclusive "dfa:" "parse:" _ Hp) by done.
    rewrite Hp, Ht, split_once_first by done. reflexivity.
  - rewrite (startswith_exclusive "pda:" "parse:" _ Hp) by done.
    rewrite (startswith_exclusive "pda:" "dfa:" _ Hp) by done.
    rewrite Hp, Ht, split_once_first by done. reflexivity.
Qed.

(** X5. A text whose trimmed form starts with parse:, dfa: or pda: in
    any letter case (and has neither daily-chat phrase) gets that
    intent, and its parameter is what follows the first colon of the
    trimmed text, trimmed again and in its original case. *)
Theorem classify_tool_prefixes (text : string) :
  contains "daily conversation" (lower (strip text)) = false ->
  contains "everyday chat" (lower (strip text)) = false ->
  forall pfx i key,
    In (pfx, i, key)
      [("parse:", Parse, "sentence"); ("dfa:", Dfa, "input");
       ("pda:", Pda, "input")] ->
    startswith pfx (lower (strip text)) = true ->
    exists tail,
      remainder_after_first ":" (strip text) tail
      /\ classify text = Some (i, {[ key := strip tail ]}).
Proof.
  intros Hd1 Hd2 pfx i key Hin Hp.
  destruct (first_separator ":" (strip text)) as [tail Hrem].
  { pose proof (startswith_count ":" _ _ Hp) as H.
    rewrite count_colon_lower in H.
    assert (0 < count ":" pfx); [|lia].
    simpl in Hin.
    destruct Hin as [[= <- _ _]|[[= <- _ _]|[[= <- _ _]|[]]]]; simpl; lia. }
  exists tail. split; [done|].
  by apply (classify_tool_branch text pfx key tail i).
Qed.

Lemma classify_tool_prefixes_witness :
  exists tail,
    remainder_after_first ":" (strip " Parse:  The Cat sleeps ") tail
    /\ classify " Parse:  The Cat sleeps "
       = Some (Parse, {[ "sentence" := strip tail ]}).
Proof.
  apply (classify_tool_prefixes " Parse:  The Cat sleeps " eq_refl eq_refl
           "parse:" Parse "sentence").
  - simpl. auto.
  - reflexivity.
Defined.

Example classify_parse_example :
  classify " Parse:  The Cat sleeps "
  = Some (Parse, {[ "sentence" := "The Cat sleeps" ]}).
Proof. vm_compute. reflexivity. Qed.

Lemma math_char_lower (c : ascii) :
  is_math_char (lower_char c) = is_math_char c
  /\ (is_math_char c = true -> lower_char c = c)
  /\ isspace (lower_char c) = isspace c.
Proof. by destruct c as [[] [] [] [] [] [] [] []]. Qed.

Lemma all_math_lower (s : string) :
  all_chars is_math_char (lower s) = all_chars is_math_char s.
Proof.
  induction s as [|c s IH]; [done|]. simpl.
  by rewrite IH, (proj1 (math_char_lower c)).
Qed.

Lemma lower_math (s : string) :
  all_chars is_math_char s = true -> lower s = s.
Proof.
  induction s as [|c s IH]; [done|]. simpl.
  intros [Hc Hs]%andb_true_iff.
  by rewrite IH, (proj1 (proj2 (math_char_lower c)) Hc).
Qed.

Lemma startswith_all (P : ascii -> bool) (p : string) : forall s,
  startswith p s = true -> all_chars P s = true -> all_chars P p = true.
Proof.
  induction p as [|a p IH]; intros s; [done|].
  destruct s as [|b s]; [done|]. simpl.
  intros [->%Ascii.eqb_eq Hp]%andb_true_iff [Hb Hs]%andb_true_iff.
  rewrite Hb. by apply (IH s).
Qed.

Lemma contains_all (P : ascii -> bool) (p s : string) :
  contains p s = true -> all_chars P s = true -> all_chars P p = true.
Proof.
  induction s as [|c s IH]; cbn [contains].
  - rewrite orb_false_r. apply startswith_all.
  - intros [H|H]%orb_true_iff Hs; [by apply (startswith_all P p _ H)|].
    simpl in Hs. apply andb_true_iff in Hs as [_ Hs]. by apply IH.
Qed.

Lemma match_class_plus_eol_all (cls : ascii -> bool) (s : string) :
  all_chars cls s = true -> s <> EmptyString -> match_class_plus_eol cls s = true.
Proof.
  induction s as [|c s IH]; [done|]. simpl.
  intros [-> Hs]%andb_true_iff _. simpl.
  destruct s as [|d s]; [done|]. rewrite IH by done. apply orb_true_r.
Qed.

Lemma match_class_plus_eol_inv (cls : ascii -> bool) (s : string) :
  match_class_plus_eol cls s = true ->
  (all_chars cls s = true /\ s <> EmptyString)
  \/ last_char None s = Some "010"%char.
Proof.
  induction s as [|c s IH]; [done|]. cbn [match_class_plus_eol].
  intros [Hc H]%andb_true_iff. apply orb_true_iff in H as [H|H].
  - destruct s as [|d s]; [left; simpl; by rewrite Hc|].
    destruct d as [[] [] [] [] [] [] [] []]; destruct s; try done. by right.
  - destruct (IH H) as [[Hs Hne]|Hl].
    + left. simpl. by rewrite Hc, Hs.
    + right. destruct s; [done|]. exact Hl.
Qed.

Lemma rstrip_last (s : string) c :
  last_char None (rstrip s) = Some c -> isspace c = false.
Proof.
  induction s as [|d s IH]; [done|]. rewrite rstrip_cons.
  destruct (rstrip s) as [|e r] eqn:E.
  - destruct (isspace d) eqn:Ed; [done|]. simpl. by intros [= <-].
  - intros H. apply IH. exact H.
Qed.

Lemma last_char_lower (s : string) : forall prev,
  last_char (lower_char <$> prev) (lower s) = lower_char <$> last_char prev s.
Proof.
  induction s as [|c s IH]; intros prev; [done|]. simpl.
  apply (IH (Some c)).
Qed.

Lemma lower_strip_no_newline (text : string) :
  last_char None (lower (strip text)) <> Some "010"%char.
Proof.
  rewrite (last_char_lower _ None). unfold strip.
  destruct (last_char None (rstrip (lstrip text))) as [c|] eqn:E; [|done].
  apply rstrip_last in E. simpl. intros [= H].
  pose proof (proj2 (proj2 (math_char_lower c))) as Hs.
  rewrite H, E in Hs. done.
Qed.

Lemma math_text_excludes (l : string) :
  all_chars is_math_char l = true ->
  String.eqb l "help" = false /\ String.eqb l "clear" = false
  /\ contains "daily conversation" l = false
  /\ contains "everyday chat" l = false
  /\ startswith "parse:" l = false /\ startswith "dfa:" l = false
  /\ startswith "pda:" l = false /\ startswith "regex:" l = false.
Proof.
  intros Hl.
  assert (Hw : forall w, all_chars is_math_char w = false ->
                         String.eqb l w = false).
  { intros w Hf. destruct (String.eqb_spec l w) as [->|]; [congruence|done]. }
  assert (Hc : forall w, all_chars is_math_char w = false ->
                         contains w l = false).
  { intros w Hf. destruct (contains w l) eqn:E; [|done].
    apply (contains_all is_math_char) in E; [congruence | done]. }
  assert (Hs : forall w, all_chars is_math_char w = false ->
                         startswith w l = false).
  { intros w Hf. destruct (startswith w l) eqn:E; [|done].
    apply (startswith_all is_math_char) in E; [congruence | done]. }
  repeat split; (apply Hw || apply Hc || apply Hs); reflexivity.
Qed.

(** X6. The intent is math exactly when the trimmed text is non-empty
    and made only of digits, the operators [+ - * /], parentheses, the
    dot, the caret, the percent sign and spaces; the expression
    parameter is then the trimmed text. *)
Theorem classify_math (text : string) (params : gmap string string) :
  classify text = Some (Math, params)
  <-> strip text <> EmptyString /\ all_chars is_math_char (strip text) = true
      /\ params = {[ "expression" := strip text ]}.
Proof.
  split.
  - intros H. classify_cases H.
    match goal with
    | Hm : match_class_plus_eol _ _ = true |- _ =>
        apply match_class_plus_eol_inv in Hm as [[Hall Hne]|Hnl]
    end.
    + rewrite all_math_lower in Hall. repeat split; [|done].
      intros E. rewrite E in Hne. done.
    + by apply lower_strip_no_newline in Hnl.
  - intros (Hne & Hall & ->). unfold classify.
    rewrite (lower_math _ Hall).
    destruct (math_text_excludes _ Hall)
      as (-> & -> & -> & -> & -> & -> & -> & ->).
    cbn [orb]. by rewrite match_class_plus_eol_all.
Qed.

(** X7. An empty or whitespace-only text falls through every rule: its
    intent is general, with no parameter. *)
Theorem classify_blank (text : string) :
  all_chars isspace text = true -> classify text = Some (General, ∅).
Proof.
  intros H. apply strip_empty in H. unfold classify. by rewrite H.
Qed.

Lemma classify_blank_witness :
  classify (String "009" (String " " (String "010" EmptyString))) = Some (General, ∅).
Proof. apply classify_blank. reflexivity. Defined.

(** X8. Each intent carries exactly its own parameter keys, so the
    defaults of the lookups in [chat] are never used: help and general
    carry none, the clear command cmd, daily message, parse sentence,
    dfa and pda input, regex pattern and string, math expression. *)
Theorem classify_params_keys (text : string) i (params : gmap string string) :
  classify text = Some (i, params) -> dom params = intent_keys i.
Proof.
  intros H. classify_cases H; simpl;
    rewrite ?dom_insert_L, ?dom_singleton_L, ?dom_empty_L; set_solver.
Qed.

Lemma classify_params_keys_witness :
  dom ({[ "pattern" := "a+"; "string" := "aaa" ]} : gmap string string)
  = intent_keys Regex.
Proof.
  apply (classify_params_keys "regex: a+; string: aaa").
  vm_compute. reflexivity.
Defined.

(** ** The language-theory tools and the evaluator *)

Lemma app_str_split (a : string) : forall b p q,
  a +:+ b = p +:+ q ->
  (exists r, a = p +:+ r /\ q = r +:+ b)
  \/ (exists r, p = a +:+ r /\ b = r +:+ q).
Proof.
  induction a as [|c a IH]; intros b p q H; simpl in H.
  - right. by exists p.
  - destruct p as [|d p]; simpl in H.
    + left. exists (String c a). by subst q.
    + injection H as -> H. destruct (IH _ _ _ H) as [(r & -> & ->)|(r & -> & ->)].
      * left. by exists r.
      * right. by exists r.
Qed.

Lemma length_app_str (a b : string) :
  String.length (a +:+ b) = String.length a + String.length b.
Proof. induction a as [|c a IH]; simpl; [done | by rewrite IH]. Qed.

Lemma pda_scan_answers (s : string) : forall stack,
  pda_scan stack s = "✓ Balanced" \/ pda_scan stack s = "✗ Unbalanced".
Proof.
  induction s as [|c s IH]; intros stack.
  - destruct stack; simpl; auto.
  - cbn [pda_scan]. destruct (Ascii.eqb c "("); [apply IH|].
    destruct (Ascii.eqb c ")"); [|apply IH].
    destruct stack; [auto | apply IH].
Qed.

(** X9. Balance composes: two balanced texts one after the other are
    balanced, a balanced text wrapped in a pair of parentheses is
    balanced, and a text is unbalanced as soon as one of its prefixes
    closes more parentheses than it opens, whatever follows. *)
Theorem check_pda_balanced_compose (a b : string) :
  (check_pda_balanced a = "✓ Balanced" ->
   check_pda_balanced b = "✓ Balanced" ->
   check_pda_balanced (a +:+ b) = "✓ Balanced")
  /\ (check_pda_balanced a = "✓ Balanced" ->
      check_pda_balanced ("(" +:+ a +:+ ")") = "✓ Balanced")
  /\ (count "(" a < count ")" a ->
      check_pda_balanced (a +:+ b) = "✗ Unbalanced").
Proof.
  unfold check_pda_balanced. rewrite !pda_scan_spec. simpl length.
  split; [|split].
  - intros [Hpa Hta] [Hpb Htb]. split.
    + intros p q H.
      apply app_str_split in H as [(r & -> & ->)|(r & -> & ->)].
      * by apply (Hpa p r).
      * specialize (Hpb r q eq_refl). rewrite ?count_app. simpl in *. lia.
    + rewrite ?count_app. simpl in *. lia.
  - intros [Hpa Hta]. split.
    + intros p q H. destruct p as [|c p]; [simpl; lia|].
      simpl in H. injection H as <- H.
      apply app_str_split in H as [(r & -> & ->)|(r & -> & Hr)].
      * specialize (Hpa p r eq_refl). cbn [count]. simpl in *. lia.
      * cbn [count]. rewrite ?count_app. simpl in Hta.
        destruct r as [|d r]; simpl in *; [lia|].
        injection Hr as <- Hr. destruct r; [|done]. simpl. lia.
    + cbn [count]. rewrite ?count_app. simpl in *. lia.
  - intros Hlt.
    destruct (pda_scan_answers (a +:+ b) []) as [H|H]; [|done].
    apply pda_scan_spec in H as [Hp _].
    specialize (Hp a b eq_refl). simpl in Hp. lia.
Qed.

Lemma check_pda_balanced_compose_witness :
  check_pda_balanced ("(x)" +:+ "()()") = "✓ Balanced"
  /\ check_pda_balanced ("(" +:+ "(x)" +:+ ")") = "✓ Balanced"
  /\ check_pda_balanced ("())" +:+ "(((") = "✗ Unbalanced".
Proof.
  split; [|split].
  - apply (check_pda_balanced_compose "(x)" "()()"); reflexivity.
  - apply (check_pda_balanced_compose "(x)" EmptyString). reflexivity.
  - apply (check_pda_balanced_compose "())" "((("). simpl. lia.
Defined.

Lemma all_chars_app (P : ascii -> bool) (a b : string) :
  all_chars P (a +:+ b) = all_chars P a && all_chars P b.
Proof.
  induction a as [|c a IH]; simpl; [done|]. by rewrite IH, andb_assoc.
Qed.

Lemma ends_in_suffix (w s t : string) :
  String.length w <= String.length t ->
  ends_in w (s +:+ t) <-> ends_in w t.
Proof.
  intros Hlen. unfold ends_in. split.
  - intros [p H]. apply app_str_split in H as [(r & -> & Hw)|(r & -> & ->)].
    + apply (f_equal String.length) in Hw as Hl.
      rewrite length_app_str in Hl.
      destruct r; [|simpl in Hl; lia]. simpl in Hw. exists EmptyString. by rewrite Hw.
    + by exists r.
  - intros [p ->]. exists (s +:+ p). by rewrite app_str_assoc.
Qed.

(** X10. The DFA answer depends only on the end of the input: for
    inputs over 0 and 1, putting any such text in front of a text of at
    least two characters does not change the answer. *)
Theorem check_dfa_ends_01_suffix (s t : string) :
  over01 s -> over01 t -> 2 <= String.length t ->
  check_dfa_ends_01 (s +:+ t) = check_dfa_ends_01 t.
Proof.
  intros Hs Ht Hlen.
  assert (Hst : over01 (s +:+ t)).
  { apply all_chars_is01. rewrite all_chars_app.
    apply all_chars_is01 in Hs, Ht. by rewrite Hs, Ht. }
  rewrite !check_dfa_valid; try done.
  - assert (E : endswith "01" (s +:+ t) = endswith "01" t); [|by rewrite E].
    apply Bool.eq_true_iff_eq. rewrite !endswith_spec.
    by apply ends_in_suffix.
  - intros ->. simpl in Hlen. lia.
  - destruct s; simpl; [|done]. intros ->. simpl in Hlen. lia.
Qed.

Lemma check_dfa_ends_01_suffix_witness :
  check_dfa_ends_01 ("110010" +:+ "01") = check_dfa_ends_01 "01".
Proof.
  apply check_dfa_ends_01_suffix; [| |simpl; lia];
    apply all_chars_is01; reflexivity.
Defined.

Lemma count_replace_char old (new s : string) :
  count old new = 0 -> count old (replace_char old new s) = 0.
Proof.
  intros Hn. induction s as [|c s IH]; [done|]. simpl.
  destruct (Ascii.eqb c old) eqn:E.
  - by rewrite count_app, Hn, IH.
  - simpl. by rewrite E, IH.
Qed.

Lemma replace_char_absent old (new s : string) :
  count old s = 0 -> replace_char old new s = s.
Proof.
  induction s as [|c s IH]; [done|]. simpl.
  destruct (Ascii.eqb c old); [done|]. intros H. by rewrite IH.
Qed.

(** X11. The evaluators never see a caret: the reply of [evaluate_math]
    is the same for any two evaluators that agree on the texts without
    a caret, and writing [**] for every [^] of the input changes
    nothing. *)
Theorem evaluate_math_caret (flag : bool)
    (sympy_N sympy_N' py_eval py_eval' : string -> py_outcome) (expr : string) :
  (forall s, count "^" s = 0 -> sympy_N s = sympy_N' s) ->
  (forall s, count "^" s = 0 -> py_eval s = py_eval' s) ->
  evaluate_math flag sympy_N py_eval expr
  = evaluate_math flag sympy_N' py_eval' expr
  /\ evaluate_math flag sympy_N py_eval (replace_char "^" "**" expr)
     = evaluate_math flag sympy_N py_eval expr.
Proof.
  intros Hs Hp. unfold evaluate_math.
  pose proof (count_replace_char "^" "**" expr eq_refl) as Hc. split.
  - by rewrite (Hs _ Hc), (Hp _ Hc).
  - by rewrite (replace_char_absent "^" "**" _ Hc).
Qed.

Lemma evaluate_math_caret_witness :
  evaluate_math false PyEval.py_eval_ref PyEval.py_eval_ref "2^3^2"
  = evaluate_math false caret_blind caret_blind "2^3^2"
  /\ evaluate_math false PyEval.py_eval_ref PyEval.py_eval_ref
       (replace_char "^" "**" "2^3^2")
     = evaluate_math false PyEval.py_eval_ref PyEval.py_eval_ref "2^3^2".
Proof.
  apply evaluate_math_caret; intros s Hs; unfold caret_blind; by rewrite Hs.
Defined.

(** ** The dialogue history and the orchestrator *)

Lemma run_ops_log (ops : list history_op) : forall h log,
  h = keep_last 30 log ->
  run_ops ops h = keep_last 30 (foldl log_op log ops).
Proof.
  induction ops as [|op ops IH]; intros h log Hh; [done|].
  simpl. apply IH. destruct op as [now r m|]; simpl; [|done].
  unfold DialogueManager.add, DialogueManager.maxlen.
  rewrite deque_append_keep_last by (subst h; rewrite length_keep_last; lia).
  subst h. apply keep_last_app_keep_last.
Qed.

(** X12. After any run of add and clear operations on a fresh history,
    the history is the last 30 of the turns added since the last clear,
    in the order they were added; so it holds min(30, n) turns when n
    were added. *)
Theorem history_is_recent_log (ops : list history_op) :
  run_ops ops DialogueManager.init = keep_last 30 (added_since_clear ops)
  /\ length (run_ops ops DialogueManager.init)
     = Nat.min 30 (length (added_since_clear ops)).
Proof.
  assert (H : run_ops ops DialogueManager.init
              = keep_last 30 (added_since_clear ops)).
  { by apply run_ops_log. }
  split; [exact H|]. rewrite H. apply length_keep_last.
Qed.

Lemma parse_sentence_nonempty nlp (s : string) :
  parse_sentence nlp s <> Some EmptyString.
Proof.
  unfold parse_sentence.
  destruct (String.eqb _ _); [done|].
  destruct nlp as [tagger|].
  - destruct (tagger _) as [doc|]; cbn [mbind option_bind]; [|done].
    by repeat match goal with
              | |- context [if ?b then _ else _] => destruct b
              end.
  - by repeat match goal with
              | |- context [if ?b then _ else _] => destruct b
              end.
Qed.

Lemma evaluate_math_nonempty flag sn pe (e : string) :
  evaluate_math flag sn pe e <> EmptyString.
Proof.
  unfold evaluate_math. destruct (if flag then _ else _) as [v|k msg]; [|done].
  by destruct (py_str v) as [text|[k msg]].
Qed.

Lemma test_regex_nonempty re (p t : string) : test_regex re p t <> Some EmptyString.
Proof. unfold test_regex. by destruct (re p t). Qed.

Lemma check_dfa_nonempty (s : string) : check_dfa_ends_01 s <> EmptyString.
Proof.
  unfold check_dfa_ends_01.
  destruct (negb _); [done|]. by destruct (endswith _ _).
Qed.

Lemma check_pda_nonempty (s : string) : check_pda_balanced s <> EmptyString.
Proof.
  unfold check_pda_balanced.
  by destruct (pda_scan_answers s []) as [-> | ->].
Qed.

Lemma texts_nonempty : _help_text <> EmptyString /\ _fallback_text <> EmptyString.
Proof. split; intros H; vm_compute in H; discriminate. Qed.

Lemma alternating_drop_even (l : list Turn) k :
  alternating l -> Nat.even k = true -> alternating (drop k l).
Proof.
  intros [Hlen Hl] Hk. split.
  - rewrite length_drop. destruct (decide (k <= length l)) as [Hle|Hgt].
    + rewrite Nat.even_sub by done. by rewrite Hlen, Hk.
    + by replace (length l - k) with 0 by lia.
  - intros i t Hi. rewrite lookup_drop in Hi. apply Hl in Hi.
    by rewrite Nat.even_add, Hk in Hi; destruct (Nat.even i).
Qed.

Lemma alternating_app_pair (h : list Turn) (u a : Turn) :
  alternating h -> role u = "user" -> role a = "assistant" ->
  alternating (h ++ [u; a]).
Proof.
  intros [Hlen Hl] Hu Ha. split.
  - rewrite length_app. simpl. rewrite Nat.even_add, Hlen. done.
  - intros i t Hi. apply lookup_app_Some in Hi as [Hi|[Hge Hi]]; [by apply Hl|].
    assert (Nat.even i = Nat.even (i - length h)) as ->.
    { replace i with (length h + (i - length h)) at 1 by lia.
      by rewrite Nat.even_add, Hlen; destruct (Nat.even (i - length h)). }
    destruct (i - length h) as [|[|n]]; simpl in Hi; by simplify_eq.
Qed.

Lemma alternating_keep_last_30 (l : list Turn) :
  alternating l -> alternating (keep_last 30 l).
Proof.
  intros Hl. apply alternating_drop_even; [done|].
  destruct (decide (30 <= length l)) as [Hle|Hgt].
  - rewrite Nat.even_sub by done. by rewrite (proj1 Hl).
  - by replace (length l - 30) with 0 by lia.
Qed.

Section Conversation.

Variable nlp : option (string -> option (list tagged)).
Variable re_fullmatch : string -> string -> re_outcome.
Variable SYMPY_AVAILABLE : bool.
Variable sympy_N : string -> py_outcome.
Variable py_eval : string -> py_outcome.
Variable REQUESTS_AVAILABLE : bool.
Variable api_key : option string.
Variable remote_chat : string -> list Turn -> string.

#[local] Abbreviation chat'' :=
  (chat nlp re_fullmatch SYMPY_AVAILABLE sympy_N py_eval
     REQUESTS_AVAILABLE api_key remote_chat).

Lemma chat_outcomes now1 now2 (text : string) (history : list Turn) :
  (chat'' now1 now2 text history = None
   /\ exists i params,
        classify text = Some (i, params)
        /\ tool_raises nlp re_fullmatch i params text)
  \/ exists reply,
       reply <> EmptyString
       /\ (chat'' now1 now2 text history = Some (reply, [])
           \/ chat'' now1 now2 text history = Some (reply, history)
           \/ chat'' now1 now2 text history
              = Some (reply,
                      DialogueManager.add now2 "assistant" reply
                        (DialogueManager.add now1 "user" text history))).
Proof.
  destruct (classify_total text) as (i & params & Hc).
  unfold chat. rewrite Hc. cbn [mbind option_bind].
  destruct texts_nonempty as [Hh Hf].
  destruct i.
  - right. exists _help_text. auto.
  - right. destruct (decide _).
    + exists "✓ Conversation cleared". auto.
    + exists _fallback_text. auto.
  - right. eexists. split; [|right; right; reflexivity].
    destruct (PerplexityClient.is_available _ _); [|done].
    by destruct (String.eqb_spec
                   (PerplexityClient.chat REQUESTS_AVAILABLE api_key remote_chat
                      (get_default params "message" text)
                      (DialogueManager.get_history history)) EmptyString).
  - pose proof (parse_sentence_nonempty nlp
                  (get_default params "sentence" text)) as Hne.
    destruct (parse_sentence nlp _) as [reply|] eqn:Et;
      cbn [mbind option_bind].
    + right. exists reply. split; [congruence | auto].
    + left. split; [done|]. by exists Parse, params.
  - right. eexists. split; [apply check_dfa_nonempty | auto].
  - right. eexists. split; [apply check_pda_nonempty | auto].
  - pose proof (test_regex_nonempty re_fullmatch
                  (get_default params "pattern" EmptyString)
                  (get_default params "string" EmptyString)) as Hne.
    destruct (test_regex re_fullmatch _ _) as [reply|] eqn:Et;
      cbn [mbind option_bind].
    + right. exists reply. split; [congruence | auto].
    + left. split; [done|]. by exists Regex, params.
  - right. eexists. split; [apply evaluate_math_nonempty | auto].
  - right. exists _fallback_text. auto.
Qed.

(** X13. A call of [chat] that returns never returns an empty reply: an
    empty answer of the remote collaborator is replaced by a fixed
    text, and every local tool has a non-empty answer for every input.
    A call raises only when the tool of its intent lets an exception
    through: the tagger, or the regex engine with another exception
    than re.error. *)
Theorem chat_always_replies now1 now2 (text : string) (history : list Turn) :
  match chat'' now1 now2 text history with
  | Some (reply, _) => reply <> EmptyString
  | None =>
      exists i params,
        classify text = Some (i, params)
        /\ tool_raises nlp re_fullmatch i params text
  end.
Proof.
  destruct (chat_outcomes now1 now2 text history)
    as [[-> H]|(reply & Hne & [->|[->| ->]])]; done.
Qed.

Lemma chat_step_invariant (h : list Turn) (call : string * string * string) :
  alternating h /\ length h <= 30 ->
  alternating (chat_step nlp re_fullmatch SYMPY_AVAILABLE sympy_N py_eval
                 REQUESTS_AVAILABLE api_key remote_chat h call)
  /\ length (chat_step nlp re_fullmatch SYMPY_AVAILABLE sympy_N py_eval
               REQUESTS_AVAILABLE api_key remote_chat h call) <= 30.
Proof.
  intros [Halt Hlen]. destruct call as [[text now1] now2]. unfold chat_step.
  destruct (chat_outcomes now1 now2 text h)
    as [[H _]|(reply & _ & [H|[H|H]])]; rewrite H.
  - done.
  - split; [|simpl; lia]. by split.
  - done.
  - rewrite add_add_keep_last by done. split.
    + by apply alternating_keep_last_30, alternating_app_pair.
    + rewrite length_keep_last. lia.
Qed.

(** X14. Through any run of [chat] calls on a fresh chatbot the history
    holds at most 30 turns, an even number of them, and they alternate:
    a user turn at every even position, an assistant turn at every odd
    one; the eviction at capacity never splits a pair. *)
Theorem conversation_alternates (calls : list (string * string * string)) :
  alternating (conversation nlp re_fullmatch SYMPY_AVAILABLE sympy_N py_eval
                 REQUESTS_AVAILABLE api_key remote_chat calls)
  /\ length (conversation nlp re_fullmatch SYMPY_AVAILABLE sympy_N py_eval
               REQUESTS_AVAILABLE api_key remote_chat calls) <= 30.
Proof.
  unfold conversation.
  assert (Hgen : forall h,
            alternating h /\ length h <= 30 ->
            alternating
              (foldl (chat_step nlp re_fullmatch SYMPY_AVAILABLE sympy_N
                        py_eval REQUESTS_AVAILABLE api_key remote_chat) h calls)
            /\ length
                 (foldl (chat_step nlp re_fullmatch SYMPY_AVAILABLE sympy_N
                           py_eval REQUESTS_AVAILABLE api_key remote_chat)
                    h calls) <= 30).
  { induction calls as [|call calls IH]; intros h Hh; [done|].
    simpl. apply IH. by apply chat_step_invariant. }
  apply Hgen. split; [by split | simpl; lia].
Qed.

End Conversation.

Lemma paren_char_facts (c : ascii) :
  is_paren (lower_char c) = is_paren c
  /\ (is_paren c = true -> lower_char c = c)
  /\ (isspace c = true -> is_paren c = false)
  /\ lower_char (lower_char c) = lower_char c.
Proof. by destruct c as [[] [] [] [] [] [] [] []]. Qed.

Lemma filter_chars_app (P : ascii -> bool) (a b : string) :
  filter_chars P (a +:+ b) = filter_chars P a +:+ filter_chars P b.
Proof.
  induction a as [|c a IH]; [done|]. simpl.
  destruct (P c); simpl; by rewrite IH.
Qed.

Lemma filter_paren_lower (s : string) :
  filter_chars is_paren (lower s) = filter_chars is_paren s.
Proof.
  induction s as [|c s IH]; [done|]. simpl.
  destruct (paren_char_facts c) as (-> & Hfix & _).
  destruct (is_paren c) eqn:E; [|done]. by rewrite IH, Hfix.
Qed.

Lemma filter_paren_lstrip (s : string) :
  filter_chars is_paren (lstrip s) = filter_chars is_paren s.
Proof.
  induction s as [|c s IH]; [done|]. cbn [lstrip].
  destruct (isspace c) eqn:E; [|done]. simpl.
  by rewrite (proj1 (proj2 (proj2 (paren_char_facts c))) E).
Qed.

Lemma filter_paren_rstrip (s : string) :
  filter_chars is_paren (rstrip s) = filter_chars is_paren s.
Proof.
  induction s as [|c s IH]; [done|]. rewrite rstrip_cons.
  destruct (rstrip s) as [|d r] eqn:E.
  - simpl in IH. destruct (isspace c) eqn:Ec.
    + simpl. rewrite (proj1 (proj2 (proj2 (paren_char_facts c))) Ec). done.
    + simpl. by rewrite <- IH.
  - cbn [filter_chars]. cbn [filter_chars] in IH. by rewrite IH.
Qed.

Lemma filter_paren_strip (s : string) :
  filter_chars is_paren (strip s) = filter_chars is_paren s.
Proof. unfold strip. by rewrite filter_paren_rstrip, filter_paren_lstrip. Qed.

Lemma check_pda_strip (s : string) :
  check_pda_balanced (strip s) = check_pda_balanced s.
Proof.
  unfold check_pda_balanced.
  by rewrite <- (pda_scan_filter (strip s)), filter_paren_strip, pda_scan_filter.
Qed.

Lemma lower_app (a b : string) : lower (a +:+ b) = lower a +:+ lower b.
Proof. induction a as [|c a IH]; simpl; [done | by rewrite IH]. Qed.

Lemma head_before_colon (p : string) : forall head rest,
  count ":" p = 0 -> count ":" head = 0 ->
  startswith (p +:+ ":") (head +:+ String ":" rest) = true -> head = p.
Proof.
  induction p as [|a p IH]; intros head rest Hp Hh H.
  - destruct head as [|c head]; [done|].
    cbn [String.append startswith] in H. cbn [count] in Hh.
    apply andb_true_iff in H as [E _]. apply Ascii.eqb_eq in E as <-.
    rewrite Ascii.eqb_refl in Hh. lia.
  - cbn [count] in Hp. destruct (Ascii.eqb_spec a ":") as [->|Ha]; [lia|].
    destruct head as [|c head]; cbn [String.append startswith] in H.
    + apply andb_true_iff in H as [E _]. by apply Ascii.eqb_eq in E.
    + apply andb_true_iff in H as [->%Ascii.eqb_eq H]. cbn [count] in Hh.
      f_equal. apply (IH head rest); [lia | lia | done].
Qed.

Section Tools.

Variable nlp : option (string -> option (list tagged)).
Variable re_fullmatch : string -> string -> re_outcome.
Variable SYMPY_AVAILABLE : bool.
Variable sympy_N : string -> py_outcome.
Variable py_eval : string -> py_outcome.
Variable REQUESTS_AVAILABLE : bool.
Variable api_key : option string.
Variable remote_chat : string -> list Turn -> string.

(** X15. End to end, a pda command answers for the whole message: for a
    text whose trimmed form starts with pda: in any case (and has
    neither daily-chat phrase), the reply of [chat] is Balanced exactly
    when the parentheses of the message as typed are properly nested. *)
Theorem chat_pda_whole_message now1 now2 (text : string) (history : list Turn) :
  startswith "pda:" (lower (strip text)) = true ->
  contains "daily conversation" (lower (strip text)) = false ->
  contains "everyday chat" (lower (strip text)) = false ->
  exists reply history',
    chat nlp re_fullmatch SYMPY_AVAILABLE sympy_N py_eval
      REQUESTS_AVAILABLE api_key remote_chat now1 now2 text history
    = Some (reply, history')
    /\ (reply = "✓ Balanced" <-> properly_nested text).
Proof.
  intros Hp Hd1 Hd2.
  destruct (first_separator ":" (strip text)) as [tail Hrem].
  { pose proof (startswith_count ":" _ _ Hp) as H.
    rewrite count_colon_lower in H. simpl in H. lia. }
  assert (Hc : classify text = Some (Pda, {[ "input" := strip tail ]})).
  { apply (classify_tool_branch text "pda:" "input" tail Pda); try done.
    simpl. auto. }
  unfold chat. rewrite Hc. simpl. eexists. eexists. split; [reflexivity|].
  unfold get_default. rewrite lookup_singleton_eq.
  destruct Hrem as (head & Ht & Hhead).
  assert (Hhd : lower head = "pda").
  { rewrite Ht, lower_app in Hp. simpl in Hp.
    apply (head_before_colon "pda" (lower head) (lower tail)); try done.
    by rewrite count_colon_lower. }
  assert (E : check_pda_balanced (strip tail) = check_pda_balanced text).
  { rewrite check_pda_strip, <- (check_pda_strip text), Ht.
    unfold check_pda_balanced.
    rewrite <- (pda_scan_filter (head +:+ String ":" tail)), filter_chars_app.
    rewrite <- (filter_paren_lower head), Hhd. simpl.
    symmetry. apply pda_scan_filter. }
  rewrite E. unfold check_pda_balanced. rewrite pda_scan_spec. simpl.
  reflexivity.
Qed.

End Tools.

Lemma chat_pda_whole_message_witness :
  exists reply history',
    chat None (fun _ _ => ReNoMatch) false (fun _ => Returned PyEmptyDict)
      (fun _ => Returned PyEmptyDict) false None (fun _ _ => EmptyString)
      "t1" "t2" " PDA: f(a (b)) " [] = Some (reply, history')
    /\ (reply = "✓ Balanced" <-> properly_nested " PDA: f(a (b)) ").
Proof.
  apply (chat_pda_whole_message None (fun _ _ => ReNoMatch) false
           (fun _ => Returned PyEmptyDict) (fun _ => Returned PyEmptyDict)
           false None (fun _ _ => EmptyString) "t1" "t2" " PDA: f(a (b)) " []);
    reflexivity.
Defined.

(** ** The request to the remote collaborator *)

Lemma keep_last_idem {A} (n : nat) (l : list A) :
  keep_last n (keep_last n l) = keep_last n l.
Proof.
  unfold keep_last. rewrite length_drop.
  by replace (length l - (length l - n) - n) with 0 by lia.
Qed.

Lemma length_flat_map_le {A B} (f : A -> list B) (l : list A) :
  (forall x, length (f x) <= 1) -> length (flat_map f l) <= length l.
Proof.
  intros Hf. induction l as [|x l IH]; simpl; [lia|].
  rewrite length_app. specialize (Hf x). lia.
Qed.

(** X16. The request carries at most the last eight turns: the
    messages are the non-empty messages of the last eight turns of the
    history, in order and with roles user or assistant only, followed
    by the new message as a user message; so there are at most nine,
    after the one system message; older turns have no effect. *)
Theorem msgs_shape (text : string) (history : list Turn) :
  length (msgs text history) <= 9
  /\ last (msgs text history) = Some {| msg_role := "user"; content := text |}
  /\ Forall (fun m => (msg_role m = "user" \/ msg_role m = "assistant")
                      /\ content m <> EmptyString) (history_msgs history)
  /\ map content (history_msgs history)
     = List.filter (fun s => negb (String.eqb s EmptyString))
         (map message (keep_last 8 history))
  /\ msgs text (keep_last 8 history) = msgs text history
  /\ head (payload_messages text history) = Some system_msg.
Proof.
  unfold msgs, history_msgs. split; [|split; [|split; [|split; [|split]]]].
  - rewrite length_app. simpl.
    assert (length (keep_last 8 history) <= 8)
      by (rewrite length_keep_last; lia).
    match goal with
    | |- length (flat_map ?f ?l) + 1 <= 9 =>
        assert (length (flat_map f l) <= length l); [|lia]
    end.
    apply length_flat_map_le. intros x. simpl.
    destruct (String.eqb (message x) EmptyString); simpl; lia.
  - apply last_snoc.
  - induction (keep_last 8 history) as [|h l IH]; simpl; [constructor|].
    destruct (String.eqb_spec (message h) EmptyString) as [E|E]; [exact IH|].
    simpl. constructor; [|exact IH]. simpl. split; [|done].
    destruct (String.eqb (role h) "user"); auto.
  - induction (keep_last 8 history) as [|h l IH]; simpl; [done|].
    destruct (String.eqb (message h) EmptyString); simpl; by rewrite IH.
  - by rewrite keep_last_idem.
  - reflexivity.
Qed.

(** ** The endpoint, and which collaborator a message reaches *)

Lemma classify_inv (text : string) i (params : gmap string string) :
  classify text = Some (i, params) ->
  match i with
  | Daily => contains "daily conversation" (lower (strip text)) = true
             \/ contains "everyday chat" (lower (strip text)) = true
  | Parse => startswith "parse:" (lower (strip text)) = true
  | Regex => startswith "regex:" (lower (strip text)) = true
  | Math => match_class_plus_eol is_math_char (lower (strip text)) = true
  | _ => True
  end.
Proof.
  intros H. classify_cases H; try done. by apply orb_true_iff.
Qed.

Section Endpoint.

Variable nlp nlp' : option (string -> option (list tagged)).
Variable re_fullmatch re_fullmatch' : string -> string -> re_outcome.
Variable SYMPY_AVAILABLE SYMPY_AVAILABLE' : bool.
Variable sympy_N sympy_N' : string -> py_outcome.
Variable py_eval py_eval' : string -> py_outcome.
Variable REQUESTS_AVAILABLE REQUESTS_AVAILABLE' : bool.
Variable api_key api_key' : option string.
Variable remote_chat remote_chat' : string -> list Turn -> string.

(** X17. A request without a message is handled as the empty message:
    when the body is a falsy JSON value or an object with no message
    key, the answer is the fallback text under the key response, and a
    user turn with an empty message and the fallback reply are
    recorded.  When [get_json] raises, when the body is another JSON
    value than an object, or when the message is not a text, the
    handler raises and nothing is recorded. *)
Theorem api_chat_missing_message now1 now2 (body : request_json)
    (history : list Turn) :
  (without_message body ->
   api_chat nlp re_fullmatch SYMPY_AVAILABLE sympy_N py_eval
     REQUESTS_AVAILABLE api_key remote_chat now1 now2 body history
   = Some ({[ "response" := _fallback_text ]},
           DialogueManager.add now2 "assistant" _fallback_text
             (DialogueManager.add now1 "user" EmptyString history)))
  /\ (unusable body ->
      api_chat nlp re_fullmatch SYMPY_AVAILABLE sympy_N py_eval
        REQUESTS_AVAILABLE api_key remote_chat now1 now2 body history
      = None).
Proof.
  assert (Hc : classify EmptyString = Some (General, ∅)) by (vm_compute; reflexivity).
  split.
  - intros [->|(fields & -> & Hf)]; unfold api_chat; cbn [mbind option_bind].
    + rewrite lookup_empty. unfold chat. by rewrite Hc.
    + rewrite Hf. unfold chat. by rewrite Hc.
  - intros [->|[->|(fields & -> & Hf)]]; unfold api_chat;
      cbn [mbind option_bind]; try done.
    by rewrite Hf.
Qed.

(** X18. A message reaches only the collaborator of its own intent.
    Without a daily-chat phrase the reply and the history do not depend
    on the remote chat API or on the credential; unless the trimmed
    text is made of the characters of arithmetic, they do not depend on
    the evaluators; without the regex: prefix they do not depend on the
    regex engine, and without the parse: prefix not on the tagger. *)
Theorem chat_collaborator_isolation now1 now2 (text : string)
    (history : list Turn) :
  (contains "daily conversation" (lower (strip text)) = false ->
   contains "everyday chat" (lower (strip text)) = false ->
   chat nlp re_fullmatch SYMPY_AVAILABLE sympy_N py_eval
     REQUESTS_AVAILABLE api_key remote_chat now1 now2 text history
   = chat nlp re_fullmatch SYMPY_AVAILABLE sympy_N py_eval
       REQUESTS_AVAILABLE' api_key' remote_chat' now1 now2 text history)
  /\ (all_chars is_math_char (strip text) = false ->
      chat nlp re_fullmatch SYMPY_AVAILABLE sympy_N py_eval
        REQUESTS_AVAILABLE api_key remote_chat now1 now2 text history
      = chat nlp re_fullmatch SYMPY_AVAILABLE' sympy_N' py_eval'
          REQUESTS_AVAILABLE api_key remote_chat now1 now2 text history)
  /\ (startswith "regex:" (lower (strip text)) = false ->
      chat nlp re_fullmatch SYMPY_AVAILABLE sympy_N py_eval
        REQUESTS_AVAILABLE api_key remote_chat now1 now2 text history
      = chat nlp re_fullmatch' SYMPY_AVAILABLE sympy_N py_eval
          REQUESTS_AVAILABLE api_key remote_chat now1 now2 text history)
  /\ (startswith "parse:" (lower (strip text)) = false ->
      chat nlp re_fullmatch SYMPY_AVAILABLE sympy_N py_eval
        REQUESTS_AVAILABLE api_key remote_chat now1 now2 text history
      = chat nlp' re_fullmatch SYMPY_AVAILABLE sympy_N py_eval
          REQUESTS_AVAILABLE api_key remote_chat now1 now2 text history).
Proof.
  destruct (classify_total text) as (i & params & Hc).
  pose proof (classify_inv text i params Hc) as Hi.
  split; [|split; [|split]].
  - intros Hd1 Hd2. unfold chat. rewrite Hc. simpl.
    destruct i; try done. exfalso.
    destruct Hi as [H|H]; [rewrite Hd1 in H | rewrite Hd2 in H]; discriminate.
  - intros Hm. unfold chat. rewrite Hc. simpl.
    destruct i; try done. exfalso.
    apply match_class_plus_eol_inv in Hi as [[Hall _]|Hnl].
    + rewrite all_math_lower, Hm in Hall. discriminate.
    + by apply lower_strip_no_newline in Hnl.
  - intros Hr. unfold chat. rewrite Hc. simpl.
    destruct i; try done. rewrite Hr in Hi. discriminate.
  - intros Hp. unfold chat. rewrite Hc. simpl.
    destruct i; try done. rewrite Hp in Hi. discriminate.
Qed.

End Endpoint.

Lemma api_chat_missing_message_witness :
  api_chat None (fun _ _ => ReNoMatch) false (fun _ => Returned PyEmptyDict)
    (fun _ => Returned PyEmptyDict) false None (fun _ _ => EmptyString)
    "t1" "t2" (JsonReturns (JObject {[ "msg" := JText "hello" ]})) []
  = Some ({[ "response" := _fallback_text ]},
          DialogueManager.add "t2" "assistant" _fallback_text
            (DialogueManager.add "t1" "user" EmptyString []))
  /\ api_chat None (fun _ _ => ReNoMatch) false (fun _ => Returned PyEmptyDict)
       (fun _ => Returned PyEmptyDict) false None (fun _ _ => EmptyString)
       "t1" "t2" (JsonReturns (JObject {[ "message" := JNotText ]})) []
     = None.
Proof.
  split.
  - apply api_chat_missing_message. right.
    exists {[ "msg" := JText "hello" ]}. split; reflexivity.
  - apply api_chat_missing_message. right. right.
    exists {[ "message" := JNotText ]}. split; reflexivity.
Defined.

Lemma chat_collaborator_isolation_witness :
  chat None (fun _ _ => ReNoMatch) false (fun _ => Returned PyEmptyDict)
    (fun _ => Returned PyEmptyDict) true (Some "key") (fun _ _ => "hi")
    "t1" "t2" "dfa: 0101" []
  = chat None (fun _ _ => ReNoMatch) false (fun _ => Returned PyEmptyDict)
      (fun _ => Returned PyEmptyDict) false None (fun _ _ => EmptyString)
      "t1" "t2" "dfa: 0101" [].
Proof.
  apply (chat_collaborator_isolation None None (fun _ _ => ReNoMatch)
           (fun _ _ => ReNoMatch) false false (fun _ => Returned PyEmptyDict)
           (fun _ => Returned PyEmptyDict) (fun _ => Returned PyEmptyDict)
           (fun _ => Returned PyEmptyDict) true false (Some "key") None
           (fun _ _ => "hi") (fun _ _ => EmptyString) "t1" "t2" "dfa: 0101" []);
    reflexivity.
Defined.

(** ** The sentence heuristic and letter case *)

Lemma isspace_lower (c : ascii) : isspace (lower_char c) = isspace c.
Proof. apply math_char_lower. Qed.

Lemma lower_idem (s : string) : lower (lower s) = lower s.
Proof.
  induction s as [|c s IH]; [done|]. simpl.
  by rewrite IH, (proj2 (proj2 (proj2 (paren_char_facts c)))).
Qed.

Lemma lstrip_lower (s : string) : lstrip (lower s) = lower (lstrip s).
Proof.
  induction s as [|c s IH]; [done|]. simpl. rewrite isspace_lower.
  by destruct (isspace c).
Qed.

Lemma rstrip_lower (s : string) : rstrip (lower s) = lower (rstrip s).
Proof.
  induction s as [|c s IH]; [done|].
  change (lower (String c s)) with (String (lower_char c) (lower s)).
  rewrite !rstrip_cons, IH, isspace_lower.
  destruct (rstrip s); simpl; [by destruct (isspace c) | done].
Qed.

Lemma strip_lower (s : string) : strip (lower s) = lower (strip s).
Proof. unfold strip. by rewrite lstrip_lower, rstrip_lower. Qed.

Lemma length_split_ws_go_lower (s : string) : forall cur cur',
  (cur = [] <-> cur' = []) ->
  length (split_ws_go cur' (lower s)) = length (split_ws_go cur s).
Proof.
  induction s as [|c s IH]; intros cur cur' Hc.
  - simpl. destruct cur, cur'; try done; by destruct Hc as [H1 H2];
      (specialize (H1 eq_refl) || specialize (H2 eq_refl)).
  - cbn [lower split_ws_go]. rewrite isspace_lower.
    destruct (isspace c).
    + rewrite !length_app, (IH [] []) by done. f_equal.
      destruct cur, cur'; try done; by destruct Hc as [H1 H2];
        (specialize (H1 eq_refl) || specialize (H2 eq_refl)).
    + apply IH. split; discriminate.
Qed.

(** X19. Without a tagger the sentence heuristic does not look at
    letter case: two sentences that are equal once lower-cased get the
    same answer. *)
Theorem parse_sentence_fallback_ignores_case (s1 s2 : string) :
  lower s1 = lower s2 ->
  parse_sentence None s1 = parse_sentence None s2.
Proof.
  assert (H : forall s, parse_sentence None s = parse_sentence None (lower s)).
  { intros s. unfold parse_sentence.
    rewrite strip_lower, lower_idem.
    replace (String.eqb (lower (strip s)) EmptyString) with (String.eqb (strip s) EmptyString)
      by by destruct (strip s).
    unfold split_ws.
    by rewrite (length_split_ws_go_lower (strip s) [] []). }
  intros E. by rewrite (H s1), (H s2), E.
Qed.

Lemma parse_sentence_fallback_ignores_case_witness :
  parse_sentence None "The Cat IS Here" = parse_sentence None "the cat is here".
Proof. apply parse_sentence_fallback_ignores_case. reflexivity. Defined.

(** ** Meta-commands inside a conversation *)

Section MetaCommands.

Variable nlp : option (string -> option (list tagged)).
Variable re_fullmatch : string -> string -> re_outcome.
Variable SYMPY_AVAILABLE : bool.
Variable sympy_N : string -> py_outcome.
Variable py_eval : string -> py_outcome.
Variable REQUESTS_AVAILABLE : bool.
Variable api_key : option string.
Variable remote_chat : string -> list Turn -> string.

#[local] Abbreviation conversation' :=
  (conversation nlp re_fullmatch SYMPY_AVAILABLE sympy_N py_eval
     REQUESTS_AVAILABLE api_key remote_chat).

#[local] Abbreviation chat_step' :=
  (chat_step nlp re_fullmatch SYMPY_AVAILABLE sympy_N py_eval
     REQUESTS_AVAILABLE api_key remote_chat).

(** X20. Inside a conversation a clear command makes everything before
    it irrelevant, and a help command leaves no trace: the history is
    the one of the calls after the clear, and the one of the calls
    without the help. *)
Theorem conversation_meta_commands
    (before after : list (string * string * string)) (text now1 now2 : string) :
  (lower (strip text) = "clear" ->
   conversation' (before ++ (text, now1, now2) :: after) = conversation' after)
  /\ (lower (strip text) = "help" ->
      conversation' (before ++ (text, now1, now2) :: after)
      = conversation' (before ++ after)).
Proof.
  unfold conversation. rewrite !foldl_app. cbn [foldl]. split; intros Hl.
  - assert (E : forall h, chat_step' h (text, now1, now2) = []).
    { intros h. unfold chat_step, chat, classify. rewrite Hl. simpl.
      by rewrite decide_True. }
    by rewrite E.
  - assert (E : forall h, chat_step' h (text, now1, now2) = h).
    { intros h. unfold chat_step, chat, classify. by rewrite Hl. }
    by rewrite E.
Qed.

End MetaCommands.

Lemma conversation_meta_commands_witness :
  conversation None (fun _ _ => ReNoMatch) false (fun _ => Returned PyEmptyDict)
    (fun _ => Returned PyEmptyDict) false None (fun _ _ => EmptyString)
    ([("pda: ()", "t1", "t2")] ++ (" Clear ", "t3", "t4") :: [("hello", "t5", "t6")])
  = conversation None (fun _ _ => ReNoMatch) false
      (fun _ => Returned PyEmptyDict) (fun _ => Returned PyEmptyDict) false None
      (fun _ _ => EmptyString) [("hello", "t5", "t6")].
Proof.
  apply (conversation_meta_commands None (fun _ _ => ReNoMatch) false
           (fun _ => Returned PyEmptyDict) (fun _ => Returned PyEmptyDict)
           false None (fun _ _ => EmptyString)). reflexivity.
Defined.
